(** * GT4Py: build cache validation and the GTIR upcasting pass

    A shallow embedding of

    - [src/gtc/passes/gtir_upcaster.py]: the pass that makes every dtype
      transition of a GTIR tree explicit through [Cast] nodes;
    - [src/gt4py/backend/cache.py]: the on-disk build cache, validated by
      the content hash of the generated module.

    Python exceptions are modelled by the [result] monad; file-system
    effects by explicit state passing in the [io] monad. *)

From Stdlib Require Import Ascii String DecimalString.
From stdpp Require Import base decidable option strings list gmap sorting.

Set Warnings "-register-all".
Local Open Scope string_scope.
Local Open Scope list_scope.

(** ** Exceptions *)

(** The exception classes the two modules can meet.  The last two derive
    from [BaseException] only: an [except Exception] clause does not
    catch them.  They are raised by the code that runs, not by a signal
    that arrives while it runs. *)
Inductive exn :=
| ValueError | KeyError | TypeError | AttributeError | AssertionError
| FileNotFoundError | PermissionError | IsADirectoryError
| FileExistsError | NotADirectoryError
| EOFError | UnpicklingError
| SystemExit | KeyboardInterrupt.

(** [issubclass(e, Exception)] *)
Definition is_exception (e : exn) : bool :=
  match e with
  | SystemExit | KeyboardInterrupt => false
  | _ => true
  end.

Inductive result (A : Type) :=
| Ok (a : A)
| Raise (e : exn).
Arguments Ok {A} a.
Arguments Raise {A} e.

Global Instance result_ret : MRet result := λ A a, Ok a.
Global Instance result_bind : MBind result := λ A B f m,
  match m with Ok a => f a | Raise e => Raise e end.

Global Instance result_fmap : FMap result := λ A B f m,
  match m with Ok a => Ok (f a) | Raise e => Raise e end.

Global Instance exn_eq_dec : EqDecision exn.
Proof. solve_decision. Defined.

(** ** Object identity *)

(** A function that hands back a node either returns the very object it
    was given ([Same]) or a newly allocated one ([New]).  Value equality
    ([==] in Python) only looks at [obj]. *)
Inductive Ref (A : Type) :=
| Same (a : A)
| New (a : A).
Arguments Same {A} a.
Arguments New {A} a.

Definition obj {A} (r : Ref A) : A :=
  match r with Same a | New a => a end.

Definition is_same {A} (r : Ref A) : bool :=
  match r with Same _ => true | New _ => false end.

(** ** GTIR nodes *)

(** The scalar dtype domain and its promotion order are declared in
    [gtc.common], outside the files at hand: they are taken as an
    interface.  [dtype_gt a b] is Python's [a > b] on dtypes. *)
Class DTypes (DataType : Type) := {
  dtype_eq_dec :: EqDecision DataType;
  dtype_gt : DataType → DataType → bool;
}.

Section Gtir.
Context {DataType : Type} `{!DTypes DataType}.

(** Modelled from the spec: the node classes of [gtc.gtir].  The four
    expression kinds the pass rewrites, [Cast], and [OtherExpr] standing
    for every other expression class (literals, accesses, unary
    operations), identified by [kind], with its expression children. *)
Inductive Expr :=
| BinaryOp (op : string) (left right : Expr) (dtype : DataType)
| TernaryOp (cond true_expr false_expr : Expr) (dtype : DataType)
| NativeFuncCall (func : string) (args : list Expr) (dtype : DataType)
| Cast (dtype : DataType) (expr : Expr)
| OtherExpr (kind : string) (children : list Expr) (dtype : DataType).

(** Modelled from the spec: the target of an assignment, a field access
    carrying its dtype; it has no expression children. *)
Record FieldAccess := { name : string; fa_dtype : DataType }.

(** Modelled from the spec: statement-level nodes.  [OtherNode] stands for
    every other node class (the stencil root, vertical loops, blocks),
    with its expression children and its node children. *)
Inductive Node :=
| ParAssignStmt (left : FieldAccess) (right : Expr)
| OtherNode (kind : string) (exprs : list Expr) (body : list Node).

(** [e.dtype] *)
Definition dtype_of (e : Expr) : DataType :=
  match e with
  | BinaryOp _ _ _ d | TernaryOp _ _ _ d | NativeFuncCall _ _ d
  | Cast d _ | OtherExpr _ _ d => d
  end.

(** Value equality of nodes ([==] on pydantic models compares the field
    values, recursively). *)
Global Instance Expr_eq_dec : EqDecision Expr.
Proof.
  unfold EqDecision, Decision. fix go 1. intros a b.
  pose proof (List.list_eq_dec go) as go_list.
  decide equality; try apply dtype_eq_dec; try apply String.string_dec;
    apply go_list.
Defined.

Global Instance FieldAccess_eq_dec : EqDecision FieldAccess.
Proof.
  unfold EqDecision, Decision. decide equality;
    try apply dtype_eq_dec; apply String.string_dec.
Defined.

Global Instance Node_eq_dec : EqDecision Node.
Proof.
  unfold EqDecision, Decision. fix go 1. intros a b.
  pose proof (List.list_eq_dec go) as go_list.
  decide equality; try apply go_list;
    try apply (List.list_eq_dec Expr_eq_dec);
    try apply Expr_eq_dec; try apply FieldAccess_eq_dec;
    apply String.string_dec.
Defined.

(** The value of a child field, as found in [node.dict()] and in the
    [updated_children] mapping. *)
Inductive field :=
| FExpr (e : Expr)
| FExprs (es : list Expr)
| FNodes (ns : list Node).

Global Instance field_eq_dec : EqDecision field.
Proof. solve_decision. Defined.

(** The part of the pydantic model interface [_update_node] relies on:
    [node.dict()[k]] and [node.copy(update=...)] (which re-validates
    nothing and keeps every field that is not updated). *)
Class PyModel (N : Type) := {
  node_dict : N → string → option field;
  node_set : N → string → field → N;
}.

Definition node_copy {N : Type} `{!PyModel N} (node : N)
    (update : list (string * field)) : N :=
  foldl (λ n kv, node_set n kv.1 kv.2) node update.

Global Instance Expr_model : PyModel Expr := {|
  node_dict e k :=
    match e with
    | BinaryOp _ l r _ =>
        if String.eqb k "left" then Some (FExpr l)
        else if String.eqb k "right" then Some (FExpr r) else None
    | TernaryOp c t f _ =>
        if String.eqb k "cond" then Some (FExpr c)
        else if String.eqb k "true_expr" then Some (FExpr t)
        else if String.eqb k "false_expr" then Some (FExpr f) else None
    | NativeFuncCall _ args _ =>
        if String.eqb k "args" then Some (FExprs args) else None
    | Cast _ x =>
        if String.eqb k "expr" then Some (FExpr x) else None
    | OtherExpr _ cs _ =>
        if String.eqb k "children" then Some (FExprs cs) else None
    end;
  node_set e k v :=
    match e, v with
    | BinaryOp op l r d, FExpr x =>
        if String.eqb k "left" then BinaryOp op x r d
        else if String.eqb k "right" then BinaryOp op l x d else e
    | TernaryOp c t f d, FExpr x =>
        if String.eqb k "cond" then TernaryOp x t f d
        else if String.eqb k "true_expr" then TernaryOp c x f d
        else if String.eqb k "false_expr" then TernaryOp c t x d else e
    | NativeFuncCall fn args d, FExprs xs =>
        if String.eqb k "args" then NativeFuncCall fn xs d else e
    | Cast d x, FExpr y =>
        if String.eqb k "expr" then Cast d y else e
    | OtherExpr kd cs d, FExprs xs =>
        if String.eqb k "children" then OtherExpr kd xs d else e
    | _, _ => e
    end;
|}.

Global Instance Node_model : PyModel Node := {|
  node_dict n k :=
    match n with
    | ParAssignStmt _ r =>
        if String.eqb k "right" then Some (FExpr r) else None
    | OtherNode _ es ns =>
        if String.eqb k "exprs" then Some (FExprs es)
        else if String.eqb k "body" then Some (FNodes ns) else None
    end;
  node_set n k v :=
    match n, v with
    | ParAssignStmt l r, FExpr x =>
        if String.eqb k "right" then ParAssignStmt l x else n
    | OtherNode kd es ns, FExprs xs =>
        if String.eqb k "exprs" then OtherNode kd xs ns else n
    | OtherNode kd es ns, FNodes xs =>
        if String.eqb k "body" then OtherNode kd es xs else n
    | _, _ => n
    end;
|}.

(** ** The pass *)

(** [_upcast_node(target_dtype, node)] *)
Definition _upcast_node (target_dtype : DataType) (node : Expr) : Expr :=
  if decide (dtype_of node = target_dtype) then node
  else Cast target_dtype node.

(** Python's [max] over a list: [ValueError] on the empty list, else the
    first element no later one is greater than. *)
Definition py_max (l : list DataType) : result DataType :=
  match l with
  | [] => Raise ValueError
  | x :: xs => Ok (foldl (λ m e, if dtype_gt e m then e else m) x xs)
  end.

(** [_upcast_nodes] over the sequence [exprs] *)
Definition _upcast_nodes (exprs : list Expr) : result (list Expr) :=
  target_dtype ← py_max (dtype_of <$> exprs);
  mret (_upcast_node target_dtype <$> exprs).

(** [_update_node(node, updated_children)]: a new node only if a child
    changed.  [old_children[k]] raises [KeyError] for a key the node does
    not have. *)
Definition _update_node {N : Type} `{!PyModel N} (node : N)
    (updated_children : list (string * field)) : result (Ref N) :=
  changed ← mapM (λ kv,
               match node_dict node kv.1 with
               | Some old => Ok (negb (bool_decide (old = kv.2)))
               | None => Raise KeyError
               end) updated_children;
  mret (if existsb id changed then New (node_copy node updated_children)
        else Same node).

(** Modelled from the spec: the dispatch of [eve.NodeTranslator] on the
    class of the node, and its generic visit for every class without a
    rule of its own (the last two branches), which visits the children and
    returns the original node unless a child changed.  The first three
    branches are [visit_BinaryOp], [visit_TernaryOp] and
    [visit_NativeFuncCall] of the source. *)
Fixpoint visit (node : Expr) : result (Ref Expr) :=
  match node with
  | BinaryOp _ l r _ =>
      vl ← visit l;
      vr ← visit r;
      ups ← _upcast_nodes [obj vl; obj vr];
      match ups with
      | [left'; right'] =>
          _update_node node [("left", FExpr left'); ("right", FExpr right')]
      | _ => Raise ValueError
      end
  | TernaryOp c t f _ =>
      vt ← visit t;
      vf ← visit f;
      ups ← _upcast_nodes [obj vt; obj vf];
      match ups with
      | [true_expr; false_expr] =>
          vc ← visit c;
          _update_node node [("true_expr", FExpr true_expr);
                             ("false_expr", FExpr false_expr);
                             ("cond", FExpr (obj vc))]
      | _ => Raise ValueError
      end
  | NativeFuncCall _ args _ =>
      args' ← mapM (λ a, obj <$> visit a) args;
      ups ← _upcast_nodes args';
      _update_node node [("args", FExprs ups)]
  | Cast _ x =>
      vx ← visit x;
      _update_node node [("expr", FExpr (obj vx))]
  | OtherExpr _ cs _ =>
      cs' ← mapM (λ a, obj <$> visit a) cs;
      _update_node node [("children", FExprs cs')]
  end.

(** [visit_ParAssignStmt] of the source; for the other nodes the generic
    visit, as above. *)
Fixpoint visit_node (node : Node) : result (Ref Node) :=
  match node with
  | ParAssignStmt l r =>
      vr ← visit r;
      let right' := _upcast_node (fa_dtype l) (obj vr) in
      _update_node node [("right", FExpr right')]
  | OtherNode _ es ns =>
      es' ← mapM (λ a, obj <$> visit a) es;
      ns' ← mapM (λ n, obj <$> visit_node n) ns;
      _update_node node [("exprs", FExprs es'); ("body", FNodes ns')]
  end.

(** [upcast(node)] *)
Definition upcast (node : Node) : result (Ref Node) := visit_node node.

(** The postcondition of the pass ("all dtype transitions are explicit
    via a [Cast] node"): the operands of a binary operation, the two
    branches of a ternary operation and the arguments of a call have one
    dtype; the right-hand side of an assignment has the dtype of the
    left-hand side. *)
Inductive coerced : Expr → Prop :=
| coerced_BinaryOp op l r d :
    coerced l → coerced r → dtype_of l = dtype_of r →
    coerced (BinaryOp op l r d)
| coerced_TernaryOp c t f d :
    coerced c → coerced t → coerced f → dtype_of t = dtype_of f →
    coerced (TernaryOp c t f d)
| coerced_NativeFuncCall fn a args d :
    Forall coerced (a :: args) →
    Forall (λ x, dtype_of x = dtype_of a) args →
    coerced (NativeFuncCall fn (a :: args) d)
| coerced_Cast d x :
    coerced x → coerced (Cast d x)
| coerced_OtherExpr k cs d :
    Forall coerced cs → coerced (OtherExpr k cs d).

Inductive coerced_node : Node → Prop :=
| coerced_ParAssignStmt l r :
    coerced r → dtype_of r = fa_dtype l → coerced_node (ParAssignStmt l r)
| coerced_OtherNode k es ns :
    Forall coerced es → Forall coerced_node ns →
    coerced_node (OtherNode k es ns).

(** Does the tree hold a native-function call without arguments? *)
Fixpoint has_empty_call (e : Expr) : bool :=
  match e with
  | BinaryOp _ l r _ => has_empty_call l || has_empty_call r
  | TernaryOp c t f _ =>
      has_empty_call c || has_empty_call t || has_empty_call f
  | NativeFuncCall _ args _ =>
      match args with
      | [] => true
      | _ => existsb has_empty_call args
      end
  | Cast _ x => has_empty_call x
  | OtherExpr _ cs _ => existsb has_empty_call cs
  end.

Fixpoint node_has_empty_call (n : Node) : bool :=
  match n with
  | ParAssignStmt _ r => has_empty_call r
  | OtherNode _ es ns =>
      existsb has_empty_call es || existsb node_has_empty_call ns
  end.

(** [inserts e e']: the tree [e'] is the tree [e] with [Cast] nodes put
    around some of its subexpressions, and nothing else changed. *)
Inductive inserts : Expr → Expr → Prop :=
| inserts_new T e e' :
    inserts e e' → inserts e (Cast T e')
| inserts_BinaryOp op l r d l' r' :
    inserts l l' → inserts r r' →
    inserts (BinaryOp op l r d) (BinaryOp op l' r' d)
| inserts_TernaryOp c t f d c' t' f' :
    inserts c c' → inserts t t' → inserts f f' →
    inserts (TernaryOp c t f d) (TernaryOp c' t' f' d)
| inserts_NativeFuncCall fn args d args' :
    Forall2 inserts args args' →
    inserts (NativeFuncCall fn args d) (NativeFuncCall fn args' d)
| inserts_Cast d x x' :
    inserts x x' → inserts (Cast d x) (Cast d x')
| inserts_OtherExpr k cs d cs' :
    Forall2 inserts cs cs' →
    inserts (OtherExpr k cs d) (OtherExpr k cs' d).

Inductive inserts_node : Node → Node → Prop :=
| inserts_ParAssignStmt l r r' :
    inserts r r' → inserts_node (ParAssignStmt l r) (ParAssignStmt l r')
| inserts_OtherNode k es ns es' ns' :
    Forall2 inserts es es' → Forall2 inserts_node ns ns' →
    inserts_node (OtherNode k es ns) (OtherNode k es' ns').

End Gtir.

Arguments Expr : clear implicits.
Arguments FieldAccess : clear implicits.
Arguments Node : clear implicits.
Arguments field : clear implicits.

(** A small dtype domain for examples, ordered
    [int32 < float32 < float64]. *)
Inductive scalar := int32 | float32 | float64.

Global Instance scalar_eq_dec : EqDecision scalar.
Proof. solve_decision. Defined.

Global Instance scalar_dtypes : DTypes scalar := {|
  dtype_gt a b :=
    match a, b with
    | float64, (int32 | float32) | float32, int32 => true
    | _, _ => false
    end;
|}.

Definition literal (d : scalar) : Expr scalar := OtherExpr "Literal" [] d.

(** ** Python values *)

(** The values a cache record can hold and [pickle] can store. *)
Inductive pyval :=
| PNone
| PBool (b : bool)
| PInt (z : Z)
| PStr (s : string)
| PList (l : list pyval)
| PDict (items : list (pyval * pyval)).

(** A dict whose keys are all strings, in insertion order. *)
Abbreviation strdict := (list (string * pyval)).

(** [d[k]] *)
Fixpoint dict_get (d : strdict) (k : string) : option pyval :=
  match d with
  | [] => None
  | (k', v) :: d' => if String.eqb k' k then Some v else dict_get d' k
  end.

(** [d[k] = v]: an existing key keeps its place, a new key goes last. *)
Fixpoint dict_set (d : strdict) (k : string) (v : pyval) : strdict :=
  match d with
  | [] => [(k, v)]
  | (k', v') :: d' =>
      if String.eqb k' k then (k', v) :: d' else (k', v') :: dict_set d' k v
  end.

(** [d.pop(k, None)]: the key may be absent. *)
Fixpoint dict_del (d : strdict) (k : string) : strdict :=
  match d with
  | [] => []
  | (k', v') :: d' =>
      if String.eqb k' k then dict_del d' k else (k', v') :: dict_del d' k
  end.

(** A dict display [{k1: v1, ..., **extra}]: the items are stored from
    left to right, a later one replacing an earlier one with its key. *)
Definition dict_display (items : strdict) : strdict :=
  foldl (λ d kv, dict_set d kv.1 kv.2) [] items.

Definition to_pydict (d : strdict) : pyval :=
  PDict (prod_map PStr id <$> d).

(** [**mapping] in a call: [TypeError] unless the value is a mapping
    whose keys are all strings. *)
Definition kwargs (v : pyval) : result strdict :=
  match v with
  | PDict items =>
      mapM (λ kv, match kv.1 with
                  | PStr k => Ok (k, kv.2)
                  | _ => Raise TypeError
                  end) items
  | _ => Raise TypeError
  end.

(** Attribute access on a [types.SimpleNamespace] *)
Definition getattr (ns : strdict) (k : string) : result pyval :=
  match dict_get ns k with
  | Some v => Ok v
  | None => Raise AttributeError
  end.

(** [v == s] for a string [s]: among the values above only the same
    string is equal to it. *)
Definition py_eq_str (v : pyval) (s : string) : bool :=
  match v with
  | PStr t => String.eqb t s
  | _ => false
  end.

(** [d[k] = v] and [d.pop(k, None)] on a dict whose keys can be any
    value, for a string key [k]. *)
Fixpoint pydict_set (items : list (pyval * pyval)) (k : string) (v : pyval)
    : list (pyval * pyval) :=
  match items with
  | [] => [(PStr k, v)]
  | (k', v') :: rest =>
      if py_eq_str k' k then (k', v) :: rest
      else (k', v') :: pydict_set rest k v
  end.

Fixpoint pydict_del (items : list (pyval * pyval)) (k : string)
    : list (pyval * pyval) :=
  match items with
  | [] => []
  | (k', v') :: rest =>
      if py_eq_str k' k then pydict_del rest k
      else (k', v') :: pydict_del rest k
  end.

Definition isinstance_dict (v : pyval) : bool :=
  match v with PDict _ => true | _ => false end.

(** ** Strings and paths *)

(** [s.split(".")] *)
Fixpoint split_dot (s : string) : list string :=
  match s with
  | EmptyString => [""]
  | String c s' =>
      let r := split_dot s' in
      if Ascii.eqb c "."%char then "" :: r
      else match r with
           | x :: xs => String c x :: xs
           | [] => [String c ""]
           end
  end.

(** [sep.join(l)] *)
Fixpoint str_join (sep : string) (l : list string) : string :=
  match l with
  | [] => ""
  | [x] => x
  | x :: xs => x +:+ sep +:+ str_join sep xs
  end.

(** [s[:-3]] *)
Definition drop_last3 (s : string) : string :=
  substring 0 (String.length s - 3) s.

Definition startswith_sep (s : string) : bool :=
  match s with String c _ => Ascii.eqb c "/"%char | EmptyString => false end.

Fixpoint endswith_sep (s : string) : bool :=
  match s with
  | EmptyString => false
  | String c EmptyString => Ascii.eqb c "/"%char
  | String _ s' => endswith_sep s'
  end.

(** [os.path.join(a, *p)] (POSIX) *)
Definition os_path_join (a : string) (p : list string) : string :=
  foldl (λ path b,
           if startswith_sep b then b
           else if (String.eqb path "" || endswith_sep path)%bool then path +:+ b
           else path +:+ "/" +:+ b) a p.

(** [os.path.dirname(p)] (POSIX): the part before the last slash, with its
    trailing slashes removed unless it consists of slashes only. *)
Definition os_path_dirname (p : string) : string :=
  let is_sep c := Ascii.eqb c "/"%char in
  let fix drop_while (f : ascii → bool) (l : list ascii) :=
    match l with
    | c :: l' => if f c then drop_while f l' else l
    | [] => []
    end in
  let rhead := drop_while (λ c, negb (is_sep c)) (rev (list_ascii_of_string p)) in
  if forallb is_sep rhead then string_of_list_ascii (rev rhead)
  else string_of_list_ascii (rev (drop_while is_sep rhead)).

(** Decimal rendering of a number by [str.format] *)
Definition dec (n : nat) : string := NilEmpty.string_of_uint (Nat.to_uint n).

(** ** The file system *)

(** A file either cannot be opened by this process or holds its content. *)
Inductive fnode :=
| FDenied
| FData (content : string).

Record fs := { files : gmap string fnode; dirs : gset string }.

(** Computations that read and change the file system and may raise. *)
Record io (A : Type) := IO { run : fs → result A * fs }.
Arguments IO {A} run.
Arguments run {A} _ _.

Global Instance io_ret : MRet io := λ A a, IO (λ s, (Ok a, s)).
Global Instance io_bind : MBind io := λ A B f m,
  IO (λ s, match run m s with
           | (Ok a, s') => run (f a) s'
           | (Raise e, s') => (Raise e, s')
           end).

Definition raise {A} (e : exn) : io A := IO (λ s, (Raise e, s)).

Definition lift {A} (r : result A) : io A := IO (λ s, (r, s)).

(** [try: body / except Exception: handler]: an exception that does not
    derive from [Exception] passes through. *)
Definition try_except {A} (body handler : io A) : io A :=
  IO (λ s, match run body s with
           | (Ok a, s') => (Ok a, s')
           | (Raise e, s') =>
               if is_exception e then run handler s' else (Raise e, s')
           end).

(** [raises_exceptions m]: whatever [m] raises derives from
    [Exception]. *)
Definition raises_exceptions {A} (m : io A) : Prop :=
  ∀ s e s', run m s = (Raise e, s') → is_exception e = true.

Definition is_file (s : fs) (p : string) : bool :=
  bool_decide (is_Some (files s !! p)).

Definition is_dir (s : fs) (p : string) : bool :=
  bool_decide (p ∈ dirs s).

(** [os.path.exists(p)] *)
Definition os_path_exists (p : string) : io bool :=
  IO (λ s, (Ok (is_file s p || is_dir s p)%bool, s)).

(** The directories above [p], nearest first. *)
Fixpoint ancestors (fuel : nat) (p : string) : list string :=
  match fuel with
  | 0 => []
  | S n =>
      let d := os_path_dirname p in
      if (String.eqb d p || String.eqb d "")%bool then []
      else d :: ancestors n d
  end.

(** [os.makedirs(name, exist_ok=True)]: creates the directory and its
    missing ancestors; fails when the name or an ancestor is a file. *)
Definition os_makedirs (name : string) : io unit :=
  IO (λ s,
    let above := ancestors (String.length name) name in
    if String.eqb name "" then (Raise FileNotFoundError, s)
    else if is_file s name then (Raise FileExistsError, s)
    else if existsb (is_file s) above then (Raise NotADirectoryError, s)
    else (Ok (), {| files := files s;
                    dirs := dirs s ∪ list_to_set (name :: above) |})).

(** Text mode.  [open(p, "r")] reads with universal newlines: of the
    characters [raw] that the file holds (its bytes decoded), the line
    ends CR LF and CR come back as LF. *)
Fixpoint universal_newlines (raw : string) : string :=
  match raw with
  | EmptyString => EmptyString
  | String c rest =>
      if Ascii.eqb c "013"%char then
        match rest with
        | String c' rest' =>
            if Ascii.eqb c' "010"%char
            then String "010"%char (universal_newlines rest')
            else String "010"%char (universal_newlines rest)
        | EmptyString => String "010"%char EmptyString
        end
      else String c (universal_newlines rest)
  end.

(** [with open(p, "rb") as f: f.read()], and [with open(p, "r") as f:
    f.read()] for a file read in text mode only, as the module file is:
    for such a file the store holds the text the read returns, which
    after a rewrite of the file is [universal_newlines] of the
    characters written. *)
Definition open_read (p : string) : io string :=
  IO (λ s,
    match files s !! p with
    | Some (FData content) => (Ok content, s)
    | Some FDenied => (Raise PermissionError, s)
    | None =>
        if is_dir s p then (Raise IsADirectoryError, s)
        else (Raise FileNotFoundError, s)
    end).

(** [with open(p, "wb") as f: f.write(data)]: the file is replaced as a
    whole; its directory has to exist, and no file may stand where a
    directory of the path is expected. *)
Definition open_write (p : string) (data : string) : io unit :=
  IO (λ s,
    let d := os_path_dirname p in
    if is_dir s p then (Raise IsADirectoryError, s)
    else if existsb (is_file s) (ancestors (String.length p) p)
    then (Raise NotADirectoryError, s)
    else if negb (String.eqb d "" || is_dir s d) then (Raise FileNotFoundError, s)
    else match files s !! p with
         | Some FDenied => (Raise PermissionError, s)
         | _ => (Ok (), {| files := <[p := FData data]> (files s);
                           dirs := dirs s |})
         end).

(** [keeps_files m]: whatever [m] does, and whether it returns or raises,
    no file is created, changed or removed (directories may be
    created). *)
Definition keeps_files {A} (m : io A) : Prop :=
  ∀ s, files (run m s).2 = files s ∧ dirs s ⊆ dirs (run m s).2.

(** ** The build cache *)

(** What [cache.py] takes from its surroundings: the settings of
    [gt4py.config], the interpreter's [sys.version_info] and
    [sys.api_version], the library version, the helpers [slugify] and
    [shash] of [gt4py.utils], and [pickle]. *)
Class Env := {
  root_path : string;
  dir_name : string;
  root_package_name : string;
  version_info_major : nat;
  version_info_minor : nat;
  api_version : nat;
  gt_version : string;
  slugify : string → string;
  shash : string → string;
  pickle_dumps : pyval → string;
  pickle_loads : string → result pyval;
}.

Record StencilId := { qualified_name : string; version : string }.

Section BuildCache.
Context `{!Env}.

(** Modelled from the spec: [gt_utils.make_dir] creates the directory tree
    if absent and tolerates that it already exists. *)
Definition make_dir (dir_name : string) : io unit := os_makedirs dir_name.

(** [pickle.load(f)] on the content of [f]; an empty file raises
    [EOFError].  Unpickling calls what the content names, so that it can
    raise any exception, also one outside [Exception]. *)
Definition pickle_load (content : string) : result pyval :=
  if String.eqb content "" then Raise EOFError else pickle_loads content.

Definition get_stencil_class_name (stencil_id : StencilId) : string :=
  let components := split_dot (qualified_name stencil_id) in
  List.last components "" +:+ "__" +:+ version stencil_id.

Definition get_stencil_package_name (stencil_id : StencilId) : string :=
  let components := split_dot (qualified_name stencil_id) in
  str_join "." ([root_package_name] ++ removelast components).

Definition get_stencil_module_name (stencil_id : StencilId)
    (qualified : bool) : string :=
  let module_name := "m_" +:+ get_stencil_class_name stencil_id in
  if qualified
  then get_stencil_package_name stencil_id +:+ "." +:+ module_name
  else module_name.

Definition get_base_path (backend_id : string) : io string :=
  let cache_root := os_path_join root_path [dir_name] in
  ex ← os_path_exists cache_root;
  _ ← (if negb ex then make_dir cache_root else mret ());
  let cpython_id :=
    "py" +:+ dec version_info_major +:+ dec version_info_minor
         +:+ "_" +:+ dec api_version in
  mret (os_path_join cache_root [cpython_id; slugify backend_id]).

Definition get_stencil_package_path (backend_id : string)
    (stencil_id : StencilId) : io string :=
  let components := split_dot (qualified_name stencil_id) in
  base ← get_base_path backend_id;
  mret (os_path_join base (removelast components)).

Definition get_stencil_module_path (backend_id : string)
    (stencil_id : StencilId) : io string :=
  let stencil_module_name := get_stencil_module_name stencil_id false in
  package_path ← get_stencil_package_path backend_id stencil_id;
  mret (os_path_join package_path [stencil_module_name +:+ ".py"]).

Definition get_cache_info_path (backend_id : string)
    (stencil_id : StencilId) : io string :=
  path ← get_stencil_module_path backend_id stencil_id;
  mret (drop_last3 path +:+ ".cacheinfo").

Definition generate_cache_info (backend_id : string)
    (stencil_id : StencilId) (extra_cache_info : strdict) : io strdict :=
  module_file_name ← get_stencil_module_path backend_id stencil_id;
  source ← open_read module_file_name;
  mret (dict_display
          ([("gt4py_version", PStr gt_version);
            ("backend", PStr backend_id);
            ("stencil_name", PStr (qualified_name stencil_id));
            ("stencil_version", PStr (version stencil_id));
            ("module_shash", PStr (shash source))]
           ++ extra_cache_info)).

Definition update_cache (backend_id : string) (stencil_id : StencilId)
    (extra_cache_info : strdict) : io unit :=
  cache_info ← generate_cache_info backend_id stencil_id extra_cache_info;
  cache_file_name ← get_cache_info_path backend_id stencil_id;
  _ ← os_makedirs (os_path_dirname cache_file_name);
  open_write cache_file_name (pickle_dumps (to_pydict cache_info)).

(** The chain [a == x and b == y and ...]: a field is only looked up when
    the comparisons before it held. *)
Definition validate_cache_info (backend_id : string)
    (stencil_id : StencilId) (cache_info : pyval) : io bool :=
  try_except
    (cache_info ← lift (kwargs cache_info);
     module_file_name ← get_stencil_module_path backend_id stencil_id;
     source ← open_read module_file_name;
     let module_shash := shash source in
     backend ← lift (getattr cache_info "backend");
     if negb (py_eq_str backend backend_id) then mret false else
     stencil_name ← lift (getattr cache_info "stencil_name");
     if negb (py_eq_str stencil_name (qualified_name stencil_id))
     then mret false else
     stencil_version ← lift (getattr cache_info "stencil_version");
     if negb (py_eq_str stencil_version (version stencil_id))
     then mret false else
     shash' ← lift (getattr cache_info "module_shash");
     mret (py_eq_str shash' module_shash))
    (mret false).

Definition check_cache (backend_id : string) (stencil_id : StencilId)
    : io bool :=
  try_except
    (cache_file_name ← get_cache_info_path backend_id stencil_id;
     content ← open_read cache_file_name;
     cache_info ← lift (pickle_load content);
     _ ← (if isinstance_dict cache_info then mret ()
          else raise AssertionError);
     validate_cache_info backend_id stencil_id cache_info)
    (mret false).

(** *** Derived notions used to state the properties *)

(** What the path functions do to the file system: the cache root is
    created when it does not exist. *)
Definition cache_setup : io unit :=
  let cache_root := os_path_join root_path [dir_name] in
  ex ← os_path_exists cache_root;
  if negb ex then make_dir cache_root else mret ().

(** The cache root exists. *)
Definition root_exists (s : fs) : Prop :=
  (is_file s (os_path_join root_path [dir_name])
   || is_dir s (os_path_join root_path [dir_name]))%bool = true.


(** What they return when that succeeds. *)
Definition module_path (backend_id : string) (stencil_id : StencilId)
    : string :=
  let cache_root := os_path_join root_path [dir_name] in
  let cpython_id :=
    "py" +:+ dec version_info_major +:+ dec version_info_minor
         +:+ "_" +:+ dec api_version in
  let base := os_path_join cache_root [cpython_id; slugify backend_id] in
  let package_path :=
    os_path_join base (removelast (split_dot (qualified_name stencil_id))) in
  os_path_join package_path [get_stencil_module_name stencil_id false +:+ ".py"].

Definition cache_info_path (backend_id : string) (stencil_id : StencilId)
    : string :=
  drop_last3 (module_path backend_id stencil_id) +:+ ".cacheinfo".

(** The text of the module file as [validate_cache_info] reads it. *)
Definition read_module (backend_id : string) (stencil_id : StencilId)
    (s : fs) : result string :=
  (run (get_stencil_module_path backend_id stencil_id ≫= open_read) s).1.

(** The value of a field of a record: a record is a mapping whose keys
    are strings. *)
Definition record_field (record : pyval) (k : string) : option pyval :=
  match kwargs record with
  | Ok ns => dict_get ns k
  | Raise _ => None
  end.

(** The four fields validation compares, with the values they must have
    for the module text [source]. *)
Definition validated_fields (backend_id : string) (stencil_id : StencilId)
    (source : string) : strdict :=
  [("backend", PStr backend_id);
   ("stencil_name", PStr (qualified_name stencil_id));
   ("stencil_version", PStr (version stencil_id));
   ("module_shash", PStr (shash source))].

(** Validity of a record as the spec words it: the module file can be
    read and each of the four fields equals its live value. *)
Definition record_valid (backend_id : string) (stencil_id : StencilId)
    (record : pyval) (s : fs) : Prop :=
  ∃ source,
    read_module backend_id stencil_id s = Ok source
    ∧ Forall (λ kv, record_field record kv.1 = Some kv.2)
        (validated_fields backend_id stencil_id source).

(** The record [update_cache] writes when the module text is [source]. *)
Definition cache_record (backend_id : string) (stencil_id : StencilId)
    (source : string) (extra_cache_info : strdict) : pyval :=
  to_pydict (dict_display
    ([("gt4py_version", PStr gt_version);
      ("backend", PStr backend_id);
      ("stencil_name", PStr (qualified_name stencil_id));
      ("stencil_version", PStr (version stencil_id));
      ("module_shash", PStr (shash source))]
     ++ extra_cache_info)).

(** [pickle] stores the value and loads it back. *)
Definition pickle_faithful (v : pyval) : Prop :=
  pickle_load (pickle_dumps v) = Ok v.

(** The module file comes to hold the text [source]. *)
Definition tamper (backend_id : string) (stencil_id : StencilId)
    (source : string) (s : fs) : fs :=
  {| files := <[module_path backend_id stencil_id := FData source]> (files s);
     dirs := dirs s |}.

(** The module file is rewritten with the characters [raw]: what a read
    in text mode returns from then on is [universal_newlines raw]. *)
Definition rewrite_module (backend_id : string) (stencil_id : StencilId)
    (raw : string) (s : fs) : fs :=
  tamper backend_id stencil_id (universal_newlines raw) s.

End BuildCache.

(** A pickle (protocol 0) that looks up [sys.exit] and calls it with no
    argument: [csys], [exit], [(], [t], [R], [.]; loading it raises
    [SystemExit]. *)
Definition exit_pickle : string :=
  "csys" +:+ String "010" "exit" +:+ String "010" "(tR.".

(** An environment for examples: a hash that keeps the text, and a
    serializer of records whose values are strings, as [key=value;],
    which also knows [exit_pickle]. *)
Fixpoint example_dumps (items : list (pyval * pyval)) : string :=
  match items with
  | (PStr k, PStr v) :: rest => k +:+ "=" +:+ v +:+ ";" +:+ example_dumps rest
  | _ => ""
  end.

Fixpoint example_loads (key : option string) (word : string) (s : string)
    : result (list (pyval * pyval)) :=
  match s with
  | EmptyString =>
      match key, word with
      | None, EmptyString => Ok []
      | _, _ => Raise UnpicklingError
      end
  | String c s' =>
      match key with
      | None =>
          if Ascii.eqb c "="%char then example_loads (Some word) "" s'
          else example_loads None (word +:+ String c "") s'
      | Some k =>
          if Ascii.eqb c ";"%char
          then ((PStr k, PStr word) ::.) <$> example_loads None "" s'
          else example_loads key (word +:+ String c "") s'
      end
  end.

Definition example_env : Env := {|
  root_path := "/home/user";
  dir_name := ".gt_cache";
  root_package_name := "_GT_";
  version_info_major := 3;
  version_info_minor := 8;
  api_version := 1013;
  gt_version := "0.1.0";
  slugify := id;
  shash source := "sha:" +:+ source;
  pickle_dumps v :=
    match v with
    | PDict items => "D" +:+ example_dumps items
    | _ => "N"
    end;
  pickle_loads content :=
    match content with
    | String "D" s => PDict <$> example_loads None "" s
    | String "N" EmptyString => Ok PNone
    | _ => if String.eqb content exit_pickle then Raise SystemExit
           else Raise UnpicklingError
    end;
|}.

Definition example_id : StencilId :=
  {| qualified_name := "pkg.sub.stencil"; version := "abc123" |}.

Definition example_module : string :=
  "/home/user/.gt_cache/py38_1013/numpy/pkg/sub/m_stencil__abc123.py".

Definition example_fs : fs :=
  {| files := {[ example_module := FData "def run(): pass" ]}; dirs := ∅ |}.


(** Another version of the example stencil, and a file system in which
    the cache root exists already. *)
Definition example_id' : StencilId :=
  {| qualified_name := "pkg.sub.stencil"; version := "ffe0" |}.

Definition example_fs_ready : fs :=
  {| files := files example_fs; dirs := {[ "/home/user/.gt_cache" ]} |}.

(** ** Backend options and the signature of a generated stencil *)

(** What [base.py] takes from its surroundings: [shashed_id] of
    [gt4py.utils], here at the arguments [make_options_id] gives it (a
    name, a module and the sorted items), and the rendering of a default
    value by [str.format]. *)
Class BackendEnv := {
  shashed_id : string → string → list (string * pyval) → string;
  format_value : pyval → string;
}.

(** An entry of [option_definitions]. *)
Record OptionInfo := { versioning : bool; description : option string }.

(** The build options as the backend reads them. *)
Record BuildOptions := {
  options_name : string;
  options_module : string;
  backend_opts : strdict;
}.

(** An argument of the API signature; the default [gt_ir.Empty] is
    [None]. *)
Record ArgInfo := {
  arg_name : string;
  is_keyword : bool;
  arg_default : option pyval;
}.

(** [sorted] on the items of a dict: the keys of a dict are distinct, so
    the order of the (key, value) tuples is the order of the keys. *)
Definition sorted_items (items : strdict) : strdict :=
  merge_sort (λ a b, String.le a.1 b.1) items.

Section Backend.
Context `{!BackendEnv}.

(** [Backend.make_options_id]; without option definitions, [None.items]
    raises [AttributeError]. *)
Definition make_options_id
    (option_definitions : option (gmap string OptionInfo))
    (options : BuildOptions) : result string :=
  match option_definitions with
  | None => Raise AttributeError
  | Some definitions =>
      let versioning_opts : gset string :=
        dom (filter (λ kv, versioning kv.2 = true) definitions) in
      Ok (shashed_id (options_name options) (options_module options)
            (sorted_items
               (filter (λ kv, kv.1 ∈ versioning_opts)
                  (backend_opts options))))
  end.

(** [BaseBackend._check_options] *)
Definition _check_options
    (option_definitions : option (gmap string OptionInfo))
    (options : BuildOptions) : result unit :=
  match option_definitions with
  | None => Raise AssertionError
  | Some definitions =>
      let unknown_options : gset string :=
        list_to_set (backend_opts options).*1 ∖ dom definitions in
      if decide (unknown_options = ∅) then Ok () else Raise ValueError
  end.

(** [BaseModuleGenerator.generate_signature] *)
Definition generate_signature (api_signature : list ArgInfo) : string :=
  let '(args, keyword_args) :=
    foldl (λ acc arg,
             let '(args, keyword_args) := acc in
             if is_keyword arg then
               match arg_default arg with
               | Some d =>
                   (args, keyword_args
                            ++ [arg_name arg +:+ "=" +:+ format_value d])
               | None => (args, keyword_args ++ [arg_name arg])
               end
             else
               match arg_default arg with
               | Some d =>
                   (args ++ [arg_name arg +:+ "=" +:+ format_value d],
                    keyword_args)
               | None => (args ++ [arg_name arg], keyword_args)
               end)
          ([], ["*"]) api_signature in
  let args :=
    if Nat.ltb 1 (length keyword_args) then args ++ keyword_args else args in
  str_join ", " args.

(** How one argument is written in the signature. *)
Definition signature_item (arg : ArgInfo) : string :=
  match arg_default arg with
  | Some d => arg_name arg +:+ "=" +:+ format_value d
  | None => arg_name arg
  end.

End Backend.

(** A backend environment and option definitions for examples. *)
Definition example_backend_env : BackendEnv := {|
  shashed_id nm md items := nm +:+ ":" +:+ md +:+ ":" +:+ example_dumps
                              (prod_map PStr id <$> items);
  format_value v := match v with PStr t => t | _ => "None" end;
|}.

Definition example_definitions : gmap string OptionInfo :=
  {[ "opt_level" := {| versioning := true; description := None |};
     "verbose" := {| versioning := false; description := None |} ]}.

(** * Properties of the upcasting pass *)

Section GtirFacts.
Context {DataType : Type} `{!DTypes DataType}.

(** Induction over expressions, with the nested lists. *)
Lemma Expr_nested_ind (P : Expr DataType → Prop) :
  (∀ op l r d, P l → P r → P (BinaryOp op l r d)) →
  (∀ c t f d, P c → P t → P f → P (TernaryOp c t f d)) →
  (∀ fn args d, Forall P args → P (NativeFuncCall fn args d)) →
  (∀ d x, P x → P (Cast d x)) →
  (∀ k cs d, Forall P cs → P (OtherExpr k cs d)) →
  ∀ e, P e.
Proof.
  intros HB HT HN HC HO.
  refine (fix IH (e : Expr DataType) : P e :=
    let all := fix all (l : list (Expr DataType)) : Forall P l :=
      match l with
      | [] => @List.Forall_nil _ P
      | x :: l' => @List.Forall_cons _ P x l' (IH x) (all l')
      end in
    match e with
    | BinaryOp op l r d => HB op l r d (IH l) (IH r)
    | TernaryOp c t f d => HT c t f d (IH c) (IH t) (IH f)
    | NativeFuncCall fn args d => HN fn args d (all args)
    | Cast d x => HC d x (IH x)
    | OtherExpr k cs d => HO k cs d (all cs)
    end).
Qed.

Lemma Node_nested_ind (P : Node DataType → Prop) :
  (∀ l r, P (ParAssignStmt l r)) →
  (∀ k es ns, Forall P ns → P (OtherNode k es ns)) →
  ∀ n, P n.
Proof.
  intros HA HO.
  refine (fix IH (n : Node DataType) : P n :=
    match n with
    | ParAssignStmt l r => HA l r
    | OtherNode k es ns =>
        HO k es ns ((fix all (l : list (Node DataType)) : Forall P l :=
          match l with
          | [] => @List.Forall_nil _ P
          | x :: l' => @List.Forall_cons _ P x l' (IH x) (all l')
          end) ns)
    end).
Qed.

(** *** The [result] monad *)

Lemma bind_Ok {A B} (m : result A) (f : A → result B) (b : B) :
  m ≫= f = Ok b ↔ ∃ a, m = Ok a ∧ f a = Ok b.
Proof.
  destruct m as [a|e]; simpl; split.
  - eauto.
  - by intros (a' & [= <-] & ?).
  - done.
  - by intros (a' & [=] & ?).
Qed.

Lemma fmap_Ok {A B} (m : result A) (f : A → B) (b : B) :
  f <$> m = Ok b ↔ ∃ a, m = Ok a ∧ b = f a.
Proof.
  destruct m as [a|e]; simpl; split.
  - intros [= <-]; eauto.
  - by intros (a' & [= <-] & ->).
  - done.
  - by intros (a' & [=] & ?).
Qed.

Lemma mapM_Ok {A B} (f : A → result B) (l : list A) (k : list B) :
  mapM f l = Ok k ↔ Forall2 (λ x y, f x = Ok y) l k.
Proof.
  revert k; induction l as [|x l IH]; intros k; simpl.
  - split; [intros [= <-]; constructor | by inversion 1].
  - rewrite bind_Ok. split.
    + intros (y & Hy & Hk). apply bind_Ok in Hk as (k' & Hk' & [= <-]).
      constructor; [done | by apply IH].
    + inversion 1 as [|? y ? k' Hy Hk']; subst. exists y; split; [done|].
      apply bind_Ok. exists k'. split; [by apply IH | done].
Qed.

(** *** [_update_node] at the shapes the visitor uses *)

Ltac update_node_shape :=
  unfold _update_node, node_copy; cbn;
  repeat case_bool_decide; case_decide; simplify_eq; cbn;
  first [done | exfalso; intuition congruence].

Lemma update_BinaryOp op (l r : Expr DataType) d l' r' :
  _update_node (BinaryOp op l r d) [("left", FExpr l'); ("right", FExpr r')]
  = Ok (if decide (l = l' ∧ r = r') then Same (BinaryOp op l r d)
        else New (BinaryOp op l' r' d)).
Proof. update_node_shape. Qed.

Lemma update_TernaryOp (c t f : Expr DataType) d c' t' f' :
  _update_node (TernaryOp c t f d)
    [("true_expr", FExpr t'); ("false_expr", FExpr f'); ("cond", FExpr c')]
  = Ok (if decide (c = c' ∧ t = t' ∧ f = f') then Same (TernaryOp c t f d)
        else New (TernaryOp c' t' f' d)).
Proof. update_node_shape. Qed.

Lemma update_NativeFuncCall fn (args : list (Expr DataType)) d args' :
  _update_node (NativeFuncCall fn args d) [("args", FExprs args')]
  = Ok (if decide (args = args') then Same (NativeFuncCall fn args d)
        else New (NativeFuncCall fn args' d)).
Proof. update_node_shape. Qed.

Lemma update_Cast d (x x' : Expr DataType) :
  _update_node (Cast d x) [("expr", FExpr x')]
  = Ok (if decide (x = x') then Same (Cast d x) else New (Cast d x')).
Proof. update_node_shape. Qed.

Lemma update_OtherExpr k (cs : list (Expr DataType)) d cs' :
  _update_node (OtherExpr k cs d) [("children", FExprs cs')]
  = Ok (if decide (cs = cs') then Same (OtherExpr k cs d)
        else New (OtherExpr k cs' d)).
Proof. update_node_shape. Qed.

Lemma update_ParAssignStmt (l : FieldAccess DataType) r r' :
  _update_node (ParAssignStmt l r) [("right", FExpr r')]
  = Ok (if decide (r = r') then Same (ParAssignStmt l r)
        else New (ParAssignStmt l r')).
Proof. update_node_shape. Qed.

Lemma update_OtherNode k (es : list (Expr DataType)) ns es' ns' :
  _update_node (OtherNode k es ns) [("exprs", FExprs es'); ("body", FNodes ns')]
  = Ok (if decide (es = es' ∧ ns = ns') then Same (OtherNode k es ns)
        else New (OtherNode k es' ns')).
Proof. update_node_shape. Qed.

Local Arguments _update_node : simpl never.
Local Arguments _upcast_node : simpl never.

(** Whichever object comes back, its value is the node with the updated
    children. *)
Lemma obj_if_same {A} (P : Prop) `{!Decision P} (a b : A) :
  (P → a = b) → obj (if decide P then Same a else New b) = b.
Proof. intros; case_decide; simpl; auto. Qed.

(** *** Promotion *)

Lemma dtype_of_upcast_node (T : DataType) (e : Expr DataType) :
  dtype_of (_upcast_node T e) = T.
Proof. unfold _upcast_node; by case_decide. Qed.

Lemma upcast_node_id (T : DataType) (e : Expr DataType) :
  dtype_of e = T → _upcast_node T e = e.
Proof. unfold _upcast_node; by case_decide. Qed.

Lemma coerced_upcast_node (T : DataType) (e : Expr DataType) :
  coerced e → coerced (_upcast_node T e).
Proof. unfold _upcast_node; case_decide; [done | by constructor]. Qed.

Lemma py_max_const (T : DataType) (l : list DataType) :
  Forall (λ d, d = T) l → py_max (T :: l) = Ok T.
Proof.
  unfold py_max; intros H; f_equal.
  induction H as [|d l -> _ IH]; simpl; [done|].
  by destruct (dtype_gt T T).
Qed.

Lemma upcast_nodes_Ok (l l' : list (Expr DataType)) :
  _upcast_nodes l = Ok l' →
  ∃ T, l ≠ [] ∧ l' = _upcast_node T <$> l.
Proof.
  unfold _upcast_nodes. intros (T & HT & [= <-])%bind_Ok.
  exists T; split; [|done]. by destruct l.
Qed.

Lemma upcast_nodes_fixed (a : Expr DataType) (l : list (Expr DataType)) :
  Forall (λ x, dtype_of x = dtype_of a) l →
  _upcast_nodes (a :: l) = Ok (a :: l).
Proof.
  intros H. unfold _upcast_nodes.
  rewrite fmap_cons, (py_max_const (dtype_of a)).
  - simpl. f_equal. rewrite upcast_node_id by done. f_equal.
    induction H as [|x l Hx _ IH]; simpl; [done|].
    by rewrite upcast_node_id, IH.
  - by apply Forall_fmap.
Qed.

(** *** The visitor establishes the postcondition and keeps dtypes *)

Lemma mapM_visit_sound (P : Expr DataType → Expr DataType → Prop)
    (l l' : list (Expr DataType)) :
  Forall (λ e, ∀ r, visit e = Ok r → P e (obj r)) l →
  mapM (λ a, obj <$> visit a) l = Ok l' →
  Forall2 P l l'.
Proof.
  intros IH H%mapM_Ok. induction H as [|x y l l' Hxy _ IHl]; [constructor|].
  inversion IH as [|? ? Hx Hl]; subst.
  apply fmap_Ok in Hxy as (r & Hr & ->). constructor; auto.
Qed.

Lemma visit_sound (e : Expr DataType) (r : Ref (Expr DataType)) :
  visit e = Ok r → coerced (obj r) ∧ dtype_of (obj r) = dtype_of e.
Proof.
  revert r; induction e as [op l r d IHl IHr|c t f d IHc IHt IHf|fn args d IH
                            |d x IHx|k cs d IH] using Expr_nested_ind;
    intros res; cbn [visit].
  - intros (vl & Hl & (vr & Hr & H)%bind_Ok)%bind_Ok.
    apply bind_Ok in H as (ups & Hups & H).
    apply upcast_nodes_Ok in Hups as (T & _ & ->). cbn in H.
    rewrite update_BinaryOp in H. injection H as <-.
    rewrite obj_if_same by (by intros [-> ->]).
    destruct (IHl _ Hl), (IHr _ Hr). split; [|done].
    constructor; auto using coerced_upcast_node.
    by rewrite !dtype_of_upcast_node.
  - intros (vt & Ht & (vf & Hf & H)%bind_Ok)%bind_Ok.
    apply bind_Ok in H as (ups & Hups & H).
    apply upcast_nodes_Ok in Hups as (T & _ & ->). cbn in H.
    apply bind_Ok in H as (vc & Hc & H).
    rewrite update_TernaryOp in H. injection H as <-.
    rewrite obj_if_same by (by intros (-> & -> & ->)).
    destruct (IHc _ Hc), (IHt _ Ht), (IHf _ Hf). split; [|done].
    constructor; auto using coerced_upcast_node.
    by rewrite !dtype_of_upcast_node.
  - intros (args' & Hargs & (ups & Hups & H)%bind_Ok)%bind_Ok.
    rewrite update_NativeFuncCall in H. injection H as <-.
    rewrite obj_if_same by (by intros ->).
    apply upcast_nodes_Ok in Hups as (T & Hne & ->).
    apply (mapM_visit_sound (λ _ y, coerced y)) in Hargs;
      [|by eapply Forall_impl; [done|]; intros ? HP ? ?%HP; tauto].
    apply Forall2_Forall_r with (Q := coerced) in Hargs;
      [|by apply Forall_true].
    split; [|done]. destruct args' as [|a args']; [done|].
    rewrite fmap_cons. constructor.
    + rewrite <- fmap_cons. apply Forall_fmap.
      eapply Forall_impl; [done|]. intros; by apply coerced_upcast_node.
    + apply Forall_fmap, Forall_true. intros y; simpl.
      by rewrite !dtype_of_upcast_node.
  - intros (vx & Hx & H)%bind_Ok.
    rewrite update_Cast in H. injection H as <-.
    rewrite obj_if_same by (by intros ->).
    destruct (IHx _ Hx). split; [by constructor | done].
  - intros (cs' & Hcs & H)%bind_Ok.
    rewrite update_OtherExpr in H. injection H as <-.
    rewrite obj_if_same by (by intros ->).
    apply (mapM_visit_sound (λ _ y, coerced y)) in Hcs;
      [|by eapply Forall_impl; [done|]; intros ? HP ? ?%HP; tauto].
    apply Forall2_Forall_r with (Q := coerced) in Hcs;
      [|by apply Forall_true].
    split; [by constructor | done].
Qed.

(** *** On a tree that meets the postcondition the visitor returns the
    object it was given *)

Lemma mapM_visit_fixed {N : Type} (f : N → result (Ref N)) (l : list N) :
  Forall (λ x, f x = Ok (Same x)) l →
  mapM (λ a, obj <$> f a) l = Ok l.
Proof.
  intros H. apply mapM_Ok.
  induction H as [|x l Hx _ IH]; constructor; [|done].
  by rewrite Hx.
Qed.

Lemma visit_fixed (e : Expr DataType) :
  coerced e → visit e = Ok (Same e).
Proof.
  induction e as [op l r d IHl IHr|c t f d IHc IHt IHf|fn args d IH
                  |d x IHx|k cs d IH] using Expr_nested_ind;
    inversion 1 as [? ? ? ? Hl Hr Hd|? ? ? ? Hc Ht Hf Hd|? a args' ? Hall Hd
                    |? ? Hx|? ? ? Hall]; subst; cbn [visit].
  - rewrite IHl, IHr by done. cbn [mbind result_bind obj].
    rewrite (upcast_nodes_fixed l [r]) by (by constructor).
    cbn [mbind result_bind]. rewrite update_BinaryOp. by rewrite decide_True.
  - rewrite IHt, IHf by done. cbn [mbind result_bind obj].
    rewrite (upcast_nodes_fixed t [f]) by (by constructor).
    cbn [mbind result_bind]. rewrite IHc by done. cbn [mbind result_bind obj].
    rewrite update_TernaryOp. by rewrite decide_True.
  - rewrite (mapM_visit_fixed visit).
    + cbn [mbind result_bind]. rewrite upcast_nodes_fixed by done.
      cbn [mbind result_bind]. rewrite update_NativeFuncCall.
      by rewrite decide_True.
    + eapply Forall_impl; [apply Forall_and; split; [exact IH | exact Hall]|].
      intros ? [HP ?]; auto.
  - rewrite IHx by done. cbn [mbind result_bind obj].
    rewrite update_Cast. by rewrite decide_True.
  - rewrite (mapM_visit_fixed visit).
    + cbn [mbind result_bind]. rewrite update_OtherExpr.
      by rewrite decide_True.
    + eapply Forall_impl; [apply Forall_and; split; [exact IH | exact Hall]|].
      intros ? [HP ?]; auto.
Qed.

Lemma visit_node_sound (n : Node DataType) (r : Ref (Node DataType)) :
  visit_node n = Ok r → coerced_node (obj r).
Proof.
  revert r; induction n as [l r|k es ns IH] using Node_nested_ind;
    intros res; cbn [visit_node].
  - intros (vr & Hr & H)%bind_Ok.
    rewrite update_ParAssignStmt in H. injection H as <-.
    rewrite obj_if_same by (by intros ->).
    destruct (visit_sound _ _ Hr).
    constructor; [by apply coerced_upcast_node|].
    by rewrite dtype_of_upcast_node.
  - intros (es' & Hes & (ns' & Hns & H)%bind_Ok)%bind_Ok.
    rewrite update_OtherNode in H. injection H as <-.
    rewrite obj_if_same by (by intros [-> ->]).
    constructor.
    + apply (mapM_visit_sound (λ _ y, coerced y)) in Hes.
      * eapply Forall2_Forall_r; [done|]. by apply Forall_true.
      * apply Forall_true. intros ? ? ?%visit_sound; tauto.
    + apply mapM_Ok in Hns. clear Hes.
      induction Hns as [|x y xs ys Hxy _ IHxs]; [constructor|].
      inversion IH; subst.
      apply fmap_Ok in Hxy as (rx & Hrx & ->). constructor; auto.
Qed.

Lemma visit_node_fixed (n : Node DataType) :
  coerced_node n → visit_node n = Ok (Same n).
Proof.
  induction n as [l r|k es ns IH] using Node_nested_ind;
    inversion 1 as [? ? Hr Hd|? ? ? Hes Hns]; subst; cbn [visit_node].
  - rewrite visit_fixed by done. cbn [mbind result_bind obj].
    rewrite upcast_node_id by done.
    rewrite update_ParAssignStmt. by rewrite decide_True.
  - rewrite (mapM_visit_fixed visit)
      by (eapply Forall_impl; [done|]; apply visit_fixed).
    cbn [mbind result_bind].
    rewrite (mapM_visit_fixed visit_node).
    + cbn [mbind result_bind]. rewrite update_OtherNode.
      by rewrite decide_True.
    + eapply Forall_impl; [apply Forall_and; split; [exact IH | exact Hns]|].
      intros ? [HP ?]; auto.
Qed.

(** *** When the visitor raises *)

Lemma mapM_outcome {N : Type} (has : N → bool) (f : N → result (Ref N))
    (l : list N) :
  Forall (λ x, if has x then f x = Raise ValueError
               else ∃ r, f x = Ok r) l →
  if existsb has l then mapM (λ a, obj <$> f a) l = Raise ValueError
  else ∃ l', mapM (λ a, obj <$> f a) l = Ok l' ∧ length l' = length l.
Proof.
  induction 1 as [|x l Hx _ IH]; cbn [existsb mapM]; [by exists []|].
  destruct (has x); cbn [orb].
  - by rewrite Hx.
  - destruct Hx as [r ->]. cbn [fmap result_fmap mbind result_bind].
    destruct (existsb has l).
    + by rewrite IH.
    + destruct IH as (l' & -> & Hlen). cbn [mbind result_bind].
      exists (obj r :: l'). cbn. by rewrite Hlen.
Qed.

Lemma upcast_nodes_nonempty (l : list (Expr DataType)) :
  l ≠ [] → ∃ l', _upcast_nodes l = Ok l' ∧ length l' = length l.
Proof.
  destruct l as [|a l]; [done|]. intros _. unfold _upcast_nodes. cbn.
  eexists; split; [done|]. cbn. by rewrite length_fmap.
Qed.

Lemma visit_outcome (e : Expr DataType) :
  if has_empty_call e then visit e = Raise ValueError
  else ∃ r, visit e = Ok r.
Proof.
  induction e as [op l r d IHl IHr|c t f d IHc IHt IHf|fn args d IH
                  |d x IHx|k cs d IH] using Expr_nested_ind;
    cbn [visit has_empty_call].
  - destruct (has_empty_call l); cbn [orb]; [by rewrite IHl|].
    destruct IHl as [vl ->]. cbn [mbind result_bind].
    destruct (has_empty_call r); [by rewrite IHr|].
    destruct IHr as [vr ->]. cbn [mbind result_bind].
    unfold _upcast_nodes; cbn. rewrite update_BinaryOp. eauto.
  - destruct (has_empty_call t) eqn:Et.
    { rewrite IHt. by rewrite orb_true_r. }
    destruct IHt as [vt ->]. cbn [mbind result_bind].
    destruct (has_empty_call f) eqn:Ef.
    { rewrite IHf. by rewrite orb_true_r. }
    destruct IHf as [vf ->]. cbn [mbind result_bind].
    unfold _upcast_nodes; cbn.
    destruct (has_empty_call c); [by rewrite IHc|].
    destruct IHc as [vc ->]. cbn. rewrite update_TernaryOp. eauto.
  - destruct args as [|a args]; [done|].
    pose proof (mapM_outcome has_empty_call visit _ IH) as Hm.
    destruct (existsb has_empty_call (a :: args)); [by rewrite Hm|].
    destruct Hm as (l' & -> & Hlen). cbn [mbind result_bind].
    destruct (upcast_nodes_nonempty l') as (ups & -> & _);
      [by destruct l'|].
    cbn [mbind result_bind]. rewrite update_NativeFuncCall. eauto.
  - destruct (has_empty_call x); [by rewrite IHx|].
    destruct IHx as [vx ->]. cbn [mbind result_bind].
    rewrite update_Cast. eauto.
  - pose proof (mapM_outcome has_empty_call visit _ IH) as Hm.
    destruct (existsb has_empty_call cs); [by rewrite Hm|].
    destruct Hm as (l' & -> & Hlen). cbn [mbind result_bind].
    rewrite update_OtherExpr. eauto.
Qed.

Lemma visit_node_outcome (n : Node DataType) :
  if node_has_empty_call n then visit_node n = Raise ValueError
  else ∃ r, visit_node n = Ok r.
Proof.
  induction n as [l r|k es ns IH] using Node_nested_ind;
    cbn [visit_node node_has_empty_call].
  - pose proof (visit_outcome r) as Hr.
    destruct (has_empty_call r); [by rewrite Hr|].
    destruct Hr as [vr ->]. cbn [mbind result_bind].
    rewrite update_ParAssignStmt. eauto.
  - pose proof (mapM_outcome has_empty_call visit es
                  (Forall_true _ _ visit_outcome)) as He.
    destruct (existsb has_empty_call es); cbn [orb]; [by rewrite He|].
    destruct He as (es' & -> & _). cbn [mbind result_bind].
    pose proof (mapM_outcome node_has_empty_call visit_node _ IH) as Hn.
    destruct (existsb node_has_empty_call ns); [by rewrite Hn|].
    destruct Hn as (ns' & -> & _). cbn [mbind result_bind].
    rewrite update_OtherNode. eauto.
Qed.

(** *** The claims on the pass *)

(** C6 (upcast idempotence): running the pass on its own result gives a
    structurally equal tree.  Both sides raise together; when the first
    pass returns, the second returns the very object it was given, so it
    inserts no cast and changes nothing. *)
Theorem upcast_idempotent (t : Node DataType) :
  obj <$> (upcast t ≫= λ r, upcast (obj r)) = obj <$> upcast t
  ∧ ∀ r, upcast t = Ok r → upcast (obj r) = Ok (Same (obj r)).
Proof.
  assert (Hfix : ∀ r, upcast t = Ok r → upcast (obj r) = Ok (Same (obj r))).
  { intros r Hr. by apply visit_node_fixed, (visit_node_sound t). }
  split; [|done].
  destruct (upcast t) as [r|e] eqn:Ht; [|done].
  cbn [mbind result_bind]. by rewrite (Hfix r).
Qed.

(** C7, as amended (minimal insertion, structural sharing): at a binary
    operation whose operands have one dtype the pass wraps neither
    operand in a cast: the operands of the result are the visited
    operands.  The result is the same object exactly when visiting left
    both operands unchanged in value; otherwise it is a copy. *)
Theorem visit_BinaryOp_same_dtype op (l r : Expr DataType) d vl vr :
  dtype_of l = dtype_of r →
  visit l = Ok vl →
  visit r = Ok vr →
  ∃ res, visit (BinaryOp op l r d) = Ok res
    ∧ obj res = BinaryOp op (obj vl) (obj vr) d
    ∧ (is_same res = true ↔ obj vl = l ∧ obj vr = r).
Proof.
  intros Hd Hl Hr. cbn [visit]. rewrite Hl, Hr. cbn [mbind result_bind].
  destruct (visit_sound _ _ Hl) as [_ Hdl], (visit_sound _ _ Hr) as [_ Hdr].
  rewrite (upcast_nodes_fixed (obj vl) [obj vr])
    by (constructor; [congruence | constructor]).
  cbn [mbind result_bind]. rewrite update_BinaryOp.
  eexists; split; [done|]. split.
  - by rewrite obj_if_same by (by intros [-> ->]).
  - case_decide as Hsame; simpl.
    + destruct Hsame as [-> ->]. by split.
    + split; [done | intros [Hl' Hr']; destruct Hsame; by split].
Qed.

(** C8 (assignment asymmetry): the pass leaves the left-hand side of an
    assignment as it is and wraps the visited right-hand side in a cast
    to the dtype of the left-hand side whenever the two dtypes differ,
    whatever their order. *)
Theorem visit_ParAssignStmt_casts_right (l : FieldAccess DataType)
    (r : Expr DataType) vr :
  visit r = Ok vr →
  ∃ res, visit_node (ParAssignStmt l r) = Ok res
    ∧ obj res = ParAssignStmt l
        (if decide (dtype_of r = fa_dtype l) then obj vr
         else Cast (fa_dtype l) (obj vr)).
Proof.
  intros Hr. cbn [visit_node]. rewrite Hr. cbn [mbind result_bind].
  rewrite update_ParAssignStmt. eexists; split; [done|].
  destruct (visit_sound _ _ Hr) as [_ Hd].
  rewrite obj_if_same by (by intros ->).
  unfold _upcast_node. rewrite Hd. by repeat case_decide.
Qed.

(** C9 (the pass is partial): on a tree that holds a native-function call
    without arguments the pass raises [ValueError], the maximum of an
    empty sequence of dtypes. *)
Theorem upcast_empty_call_raises (t : Node DataType) :
  node_has_empty_call t = true → upcast t = Raise ValueError.
Proof.
  intros H. pose proof (visit_node_outcome t) as Ht. by rewrite H in Ht.
Qed.

End GtirFacts.

(** *** The claims at concrete trees *)

(** A second pass over an upcast stencil returns the stencil itself. *)
Lemma upcast_idempotent_witness :
  upcast (OtherNode "Stencil" []
            [ParAssignStmt {| name := "out"; fa_dtype := float32 |}
               (Cast float32
                  (BinaryOp "+" (Cast float64 (literal int32))
                                (literal float64) float64))])
  = Ok (Same (OtherNode "Stencil" []
            [ParAssignStmt {| name := "out"; fa_dtype := float32 |}
               (Cast float32
                  (BinaryOp "+" (Cast float64 (literal int32))
                                (literal float64) float64))])).
Proof.
  apply (proj2 (upcast_idempotent
    (OtherNode "Stencil" []
       [ParAssignStmt {| name := "out"; fa_dtype := float32 |}
          (BinaryOp "+" (literal int32) (literal float64) float64)]))
    (New _)).
  reflexivity.
Defined.

(** Two [float64] literals: nothing is wrapped. *)
Lemma visit_BinaryOp_same_dtype_witness :
  ∃ res, visit (BinaryOp "+" (literal float64) (literal float64) float64)
         = Ok res
    ∧ obj res = BinaryOp "+" (literal float64) (literal float64) float64
    ∧ (is_same res = true ↔
         literal float64 = literal float64 ∧ literal float64 = literal float64).
Proof.
  apply (visit_BinaryOp_same_dtype "+" (literal float64) (literal float64)
           float64 (Same (literal float64)) (Same (literal float64)));
    reflexivity.
Defined.

(** C7 as stated fails: the operands below have one dtype, [float64], yet
    the pass returns a new object, because a cast was inserted inside the
    left operand. *)
Lemma visit_BinaryOp_same_dtype_new_object :
  let l := BinaryOp "+" (literal int32) (literal float64) float64 in
  let r := literal float64 in
  dtype_of l = dtype_of r
  ∧ visit (BinaryOp "*" l r float64)
    = Ok (New (BinaryOp "*"
                 (BinaryOp "+" (Cast float64 (literal int32))
                               (literal float64) float64)
                 r float64))
  ∧ visit (BinaryOp "*" l r float64) ≠ Ok (Same (BinaryOp "*" l r float64)).
Proof.
  intros l r. split; [reflexivity|].
  assert (E : visit (BinaryOp "*" l r float64)
              = Ok (New (BinaryOp "*"
                      (BinaryOp "+" (Cast float64 (literal int32))
                                    (literal float64) float64)
                      r float64))) by reflexivity.
  split; [exact E|]. rewrite E. discriminate.
Qed.

(** A [float64] value assigned to a [float32] field is cast down. *)
Lemma visit_ParAssignStmt_casts_right_witness :
  ∃ res, visit_node (ParAssignStmt {| name := "out"; fa_dtype := float32 |}
                       (literal float64)) = Ok res
    ∧ obj res = ParAssignStmt {| name := "out"; fa_dtype := float32 |}
                  (Cast float32 (literal float64)).
Proof.
  exact (visit_ParAssignStmt_casts_right
           {| name := "out"; fa_dtype := float32 |} (literal float64)
           (Same (literal float64)) eq_refl).
Defined.

(** A call without arguments below an assignment. *)
Lemma upcast_empty_call_raises_witness :
  upcast (OtherNode "Stencil" []
            [ParAssignStmt {| name := "out"; fa_dtype := float64 |}
               (BinaryOp "+" (literal float64)
                  (NativeFuncCall "f" [] float64) float64)])
  = Raise ValueError.
Proof. apply upcast_empty_call_raises. reflexivity. Defined.

(** * Properties of the build cache *)

Section BuildCacheFacts.
Context `{!Env}.

(** *** Strings and paths *)

Lemma append_cons (x : ascii) (a b : string) :
  String x a +:+ b = String x (a +:+ b).
Proof. reflexivity. Qed.

Lemma append_assoc (a b c : string) : (a +:+ b) +:+ c = a +:+ (b +:+ c).
Proof.
  induction a as [|x a IH]; [done|]. rewrite !append_cons. by f_equal.
Qed.

Lemma length_append (a b : string) :
  String.length (a +:+ b) = String.length a + String.length b.
Proof.
  induction a as [|x a IH]; [done|]. rewrite append_cons. cbn. by f_equal.
Qed.

Lemma substring_prefix (a b : string) :
  substring 0 (String.length a) (a +:+ b) = a.
Proof.
  induction a as [|x a IH]; [by destruct b|].
  rewrite append_cons. cbn. by f_equal.
Qed.

Lemma drop_last3_py (q : string) : drop_last3 (q +:+ ".py") = q.
Proof.
  unfold drop_last3. rewrite length_append. simpl.
  replace (String.length q + 3 - 3) with (String.length q) by lia.
  apply substring_prefix.
Qed.

(** Joining a path with a name that does not start with a slash puts
    the name at the end. *)
Lemma os_path_join_suffix (a b : string) :
  startswith_sep b = false → ∃ q, os_path_join a [b] = q +:+ b.
Proof.
  intros Hb. unfold os_path_join; simpl. rewrite Hb.
  destruct (_ || _)%bool.
  - by exists a.
  - exists (a +:+ "/"). by rewrite append_assoc.
Qed.

Lemma module_path_py b id : ∃ q, module_path b id = q +:+ ".py".
Proof.
  unfold module_path.
  edestruct os_path_join_suffix as [q ->]; [|
    exists (q +:+ get_stencil_module_name id false); by rewrite append_assoc].
  done.
Qed.

(** The metadata record never lives in the module file. *)
Lemma cache_info_path_ne b id : cache_info_path b id ≠ module_path b id.
Proof.
  unfold cache_info_path. destruct (module_path_py b id) as [q ->].
  rewrite drop_last3_py. by intros ?%(inj (String.app q)).
Qed.

Local Arguments os_path_join : simpl never.
Local Arguments os_path_dirname : simpl never.
Local Arguments drop_last3 : simpl never.
Local Arguments os_makedirs : simpl never.
Local Arguments make_dir : simpl never.
Local Arguments open_read : simpl never.
Local Arguments open_write : simpl never.

(** *** Running [io] computations *)

Lemma run_bind {A B} (m : io A) (f : A → io B) (s : fs) :
  run (m ≫= f) s =
  match run m s with
  | (Ok a, s') => run (f a) s'
  | (Raise e, s') => (Raise e, s')
  end.
Proof. reflexivity. Qed.

Lemma run_ret {A} (a : A) (s : fs) : run (mret a) s = (Ok a, s).
Proof. reflexivity. Qed.

Lemma run_lift {A} (r : result A) (s : fs) : run (lift r) s = (r, s).
Proof. reflexivity. Qed.

(** A handler that returns a value makes the whole block return, when
    the body raises nothing outside [Exception]. *)
Lemma try_except_returns {A} (body : io A) (a : A) (s : fs) :
  raises_exceptions body →
  ∃ r s', run (try_except body (mret a)) s = (Ok r, s').
Proof.
  intros Hb. unfold try_except; cbn.
  destruct (run body s) as [[r|e] s'] eqn:E; [eauto|].
  rewrite (Hb _ _ _ E). eauto.
Qed.

Lemma try_except_true (body : io bool) (s : fs) :
  (run (try_except body (mret false)) s).1 = Ok true ↔
  (run body s).1 = Ok true.
Proof.
  unfold try_except; cbn. destruct (run body s) as [[r|e] s']; [done|].
  by destruct (is_exception e).
Qed.

(** What the block raises is what the body raises outside [Exception]. *)
Lemma try_except_Raise {A} (body : io A) (a : A) (s : fs) (e : exn) :
  (run (try_except body (mret a)) s).1 = Raise e ↔
  (run body s).1 = Raise e ∧ is_exception e = false.
Proof.
  unfold try_except; cbn. destruct (run body s) as [[r|e'] s']; cbn.
  - split; [done | by intros [? _]].
  - destruct (is_exception e') eqn:E; cbn.
    + split; [done|]. intros [[= ->] ?]. congruence.
    + split; [by intros [= <-] | by intros [? _]].
Qed.

Lemma raises_exceptions_ret {A} (a : A) : raises_exceptions (mret a).
Proof. by intros s e s'. Qed.

Lemma raises_exceptions_lift {A} (r : result A) :
  (∀ e, r = Raise e → is_exception e = true) → raises_exceptions (lift r).
Proof. intros Hr s e s' [= -> _]. by apply Hr. Qed.

Lemma raises_exceptions_bind {A B} (m : io A) (f : A → io B) :
  raises_exceptions m → (∀ a, raises_exceptions (f a)) →
  raises_exceptions (m ≫= f).
Proof.
  intros Hm Hf s e s'. rewrite run_bind.
  destruct (run m s) as [[a|e1] s1] eqn:E.
  - apply Hf.
  - intros [= <- <-]. by eapply Hm.
Qed.

(** *** The file system *)

Lemma os_makedirs_Ok name s s' :
  run (os_makedirs name) s = (Ok (), s') →
  files s' = files s ∧ dirs s ⊆ dirs s' ∧ name ∈ dirs s'.
Proof.
  unfold os_makedirs; cbn.
  repeat case_match; intros [= <-]; cbn.
  split; [done|]. split; set_solver.
Qed.

Lemma os_makedirs_files name s :
  files (run (os_makedirs name) s).2 = files s.
Proof. unfold os_makedirs; cbn. by repeat case_match. Qed.

Lemma root_exists_mono s s' :
  files s' = files s ∨ (∃ p x, files s' = <[p := x]> (files s)) →
  dirs s ⊆ dirs s' →
  root_exists s → root_exists s'.
Proof.
  unfold root_exists, is_file, is_dir. intros Hf Hd.
  rewrite !orb_true_iff, !bool_decide_eq_true. intros [Hfile|Hdir].
  - left. destruct Hf as [->|(p & x & ->)]; [done|].
    destruct (decide (p = os_path_join root_path [dir_name])) as [->|].
    + by rewrite lookup_insert_eq.
    + by rewrite lookup_insert_ne.
  - right. by apply Hd.
Qed.

Lemma cache_setup_exists s :
  root_exists s → run cache_setup s = (Ok (), s).
Proof.
  unfold root_exists, cache_setup. rewrite run_bind; cbn. by intros ->.
Qed.

Lemma cache_setup_files s : files (run cache_setup s).2 = files s.
Proof.
  unfold cache_setup. rewrite run_bind; cbn.
  destruct (_ || _)%bool; cbn; [done|]. apply os_makedirs_files.
Qed.

Lemma cache_setup_Ok s s' :
  run cache_setup s = (Ok (), s') → root_exists s'.
Proof.
  unfold cache_setup. rewrite run_bind; cbn.
  destruct (_ || _)%bool eqn:E; cbn.
  - by intros [= <-].
  - intros (_ & _ & Hin)%os_makedirs_Ok.
    unfold root_exists, is_dir. rewrite bool_decide_eq_true_2 by done.
    apply orb_true_r.
Qed.

(** The path functions set the cache up and return the paths. *)
Lemma get_stencil_module_path_run b id s :
  run (get_stencil_module_path b id) s =
  match run cache_setup s with
  | (Ok _, s') => (Ok (module_path b id), s')
  | (Raise e, s') => (Raise e, s')
  end.
Proof.
  unfold get_stencil_module_path, get_stencil_package_path, get_base_path,
    cache_setup. rewrite !run_bind; cbn.
  destruct (_ || _)%bool; cbn; [done|]. rewrite !run_bind.
  by destruct (run (make_dir _) s) as [[[]|e] s'].
Qed.

Lemma get_cache_info_path_run b id s :
  run (get_cache_info_path b id) s =
  match run cache_setup s with
  | (Ok _, s') => (Ok (cache_info_path b id), s')
  | (Raise e, s') => (Raise e, s')
  end.
Proof.
  unfold get_cache_info_path. rewrite run_bind, get_stencil_module_path_run.
  by destruct (run cache_setup s) as [[[]|e] s'].
Qed.

Lemma open_read_Ok p s c s' :
  run (open_read p) s = (Ok c, s') ↔ files s !! p = Some (FData c) ∧ s' = s.
Proof.
  unfold open_read; cbn.
  repeat case_match;
    (split; [intros ? | intros [? ?]]; by simplify_eq).
Qed.

Lemma open_read_data p s c :
  files s !! p = Some (FData c) → run (open_read p) s = (Ok c, s).
Proof. intros; by apply open_read_Ok. Qed.

Lemma open_write_Ok p data s s' :
  run (open_write p data) s = (Ok (), s') →
  files s' = <[p := FData data]> (files s) ∧ dirs s' = dirs s.
Proof.
  unfold open_write; cbn. repeat case_match; by intros [= <-].
Qed.

Lemma raises_exceptions_open_read p : raises_exceptions (open_read p).
Proof.
  intros s e s'. unfold open_read; cbn.
  repeat case_match; by intros [= <- _].
Qed.

Lemma raises_exceptions_os_makedirs p : raises_exceptions (os_makedirs p).
Proof.
  intros s e s'. unfold os_makedirs; cbn.
  repeat case_match; by intros [= <- _].
Qed.

Lemma raises_exceptions_cache_setup : raises_exceptions cache_setup.
Proof.
  unfold cache_setup. apply raises_exceptions_bind; [by intros s e s'|].
  intros []; cbn; [apply raises_exceptions_ret|].
  apply raises_exceptions_os_makedirs.
Qed.

Lemma raises_exceptions_get_stencil_module_path b id :
  raises_exceptions (get_stencil_module_path b id).
Proof.
  intros s e s'. rewrite get_stencil_module_path_run.
  destruct (run cache_setup s) as [[[]|e1] s1] eqn:E; [done|].
  intros [= <- <-]. by eapply raises_exceptions_cache_setup.
Qed.

Lemma raises_exceptions_get_cache_info_path b id :
  raises_exceptions (get_cache_info_path b id).
Proof.
  intros s e s'. rewrite get_cache_info_path_run.
  destruct (run cache_setup s) as [[[]|e1] s1] eqn:E; [done|].
  intros [= <- <-]. by eapply raises_exceptions_cache_setup.
Qed.

Local Arguments get_stencil_module_path : simpl never.
Local Arguments get_cache_info_path : simpl never.
Local Arguments cache_setup : simpl never.

(** *** Dicts and records *)

Lemma py_eq_str_true (v : pyval) (t : string) :
  py_eq_str v t = true ↔ v = PStr t.
Proof.
  destruct v; simpl; try (split; [done | by intros [=]]).
  rewrite String.eqb_eq. split; [by intros -> | by intros [= ->]].
Qed.

Lemma py_eq_str_false (v : pyval) (t : string) :
  py_eq_str v t = false ↔ v ≠ PStr t.
Proof.
  rewrite <- py_eq_str_true. by destruct (py_eq_str v t).
Qed.

Lemma dict_get_set_eq (d : strdict) k v : dict_get (dict_set d k v) k = Some v.
Proof.
  induction d as [|[k' v'] d IH]; simpl.
  - by rewrite String.eqb_refl.
  - destruct (String.eqb k' k) eqn:E; simpl; by rewrite E.
Qed.

Lemma dict_get_set_ne (d : strdict) k k' v :
  k ≠ k' → dict_get (dict_set d k v) k' = dict_get d k'.
Proof.
  intros Hne. induction d as [|[k0 v0] d IH]; simpl.
  - by rewrite (proj2 (String.eqb_neq k k')).
  - destruct (String.eqb k0 k) eqn:E; simpl; [|by rewrite IH].
    apply String.eqb_eq in E as ->.
    by rewrite (proj2 (String.eqb_neq k k')).
Qed.

Lemma dict_get_app (a b : strdict) k :
  dict_get (a ++ b) k = from_option Some (dict_get b k) (dict_get a k).
Proof.
  induction a as [|[k' v'] a IH]; simpl; [done|].
  by destruct (String.eqb k' k).
Qed.

Lemma dict_get_In (d : strdict) k v : dict_get d k = Some v → (k, v) ∈ d.
Proof.
  induction d as [|[k' v'] d IH]; simpl; [done|].
  destruct (String.eqb k' k) eqn:E.
  - apply String.eqb_eq in E as ->. intros [= ->]. by left.
  - intros ?%IH. by right.
Qed.

(** In a dict display the last item with a key gives its value. *)
Lemma dict_get_display (items : strdict) k :
  dict_get (dict_display items) k = dict_get (rev items) k.
Proof.
  unfold dict_display.
  enough (∀ d, dict_get (foldl (λ d kv, dict_set d kv.1 kv.2) d items) k
               = from_option Some (dict_get d k) (dict_get (rev items) k))
    as -> by (by destruct (dict_get (rev items) k)).
  induction items as [|[k' v'] items IH]; intros d; simpl; [done|].
  rewrite IH, dict_get_app. simpl.
  destruct (dict_get (rev items) k); simpl; [done|].
  destruct (String.eqb k' k) eqn:E; simpl.
  - apply String.eqb_eq in E as ->. apply dict_get_set_eq.
  - apply String.eqb_neq in E. by apply dict_get_set_ne.
Qed.

Lemma kwargs_to_pydict (d : strdict) : kwargs (to_pydict d) = Ok d.
Proof.
  unfold to_pydict, kwargs. apply mapM_Ok.
  induction d as [|[k v] d IH]; cbn; constructor; [done | apply IH].
Qed.

(** *** Validation *)

(** One link of the chain of comparisons, and its last link. *)
Lemma chain_link (ns : strdict) k t (rest : io bool) (P : Prop) s :
  ((run rest s).1 = Ok true ↔ P) →
  (run (lift (getattr ns k) ≫= λ v,
        if negb (py_eq_str v t) then mret false else rest) s).1 = Ok true
  ↔ dict_get ns k = Some (PStr t) ∧ P.
Proof.
  intros Hrest. rewrite run_bind, run_lift. unfold getattr.
  destruct (dict_get ns k) as [v|]; [|by split; [|intros [[=] _]]].
  destruct (py_eq_str v t) eqn:E; cbn [negb].
  - apply py_eq_str_true in E as ->. rewrite Hrest. by split; [|intros [_ ?]].
  - apply py_eq_str_false in E. split; [done|]. by intros [[= ->] _].
Qed.

Lemma chain_last (ns : strdict) k t s :
  (run (lift (getattr ns k) ≫= λ v, mret (py_eq_str v t)) s).1 = Ok true
  ↔ dict_get ns k = Some (PStr t).
Proof.
  rewrite run_bind, run_lift. unfold getattr.
  destruct (dict_get ns k) as [v|]; [|done]. cbn.
  split.
  - intros [= ->%py_eq_str_true]. done.
  - intros [= ->]. f_equal. by apply py_eq_str_true.
Qed.

Lemma validate_cache_info_true b id record s :
  (run (validate_cache_info b id record) s).1 = Ok true
  ↔ record_valid b id record s.
Proof.
  unfold validate_cache_info. rewrite try_except_true.
  unfold record_valid, read_module, record_field, validated_fields.
  rewrite run_bind, run_lift.
  destruct (kwargs record) as [ns|e].
  2: { split; [done|]. intros (? & _ & Hall). by inversion Hall. }
  rewrite !run_bind.
  destruct (run (get_stencil_module_path b id) s) as [[p|e] s1].
  2: { split; [done|]. by intros (? & [=] & _). }
  rewrite ?run_bind.
  destruct (run (open_read p) s1) as [[src|e] s2].
  2: { split; [done|]. by intros (? & [=] & _). }
  repeat setoid_rewrite Forall_cons. setoid_rewrite Forall_nil.
  cbn [fst snd].
  etrans; [apply chain_link, chain_link, chain_link, chain_last|].
  split.
  - intros (? & ? & ? & ?). exists src. by repeat split.
  - intros (? & [= <-] & ? & ? & ? & ? & _). by repeat split.
Qed.

Lemma kwargs_Raise v e : kwargs v = Raise e → e = TypeError.
Proof.
  destruct v as [| | | |l|items]; cbn; try by intros [= <-].
  induction items as [|[k x] items IH] in e |- *; cbn; [done|].
  destruct k; cbn; try by intros [= <-].
  destruct (mapM _ items) as [l|e']; cbn; [done|].
  intros [= <-]. by apply IH.
Qed.

Lemma getattr_Raise ns k e : getattr ns k = Raise e → e = AttributeError.
Proof. unfold getattr. by destruct (dict_get ns k); intros [= <-]. Qed.

(** Nothing that validation does raises outside [Exception]. *)
Lemma validate_cache_info_returns b id record s :
  ∃ r s', run (validate_cache_info b id record) s = (Ok r, s').
Proof.
  apply try_except_returns.
  repeat first
    [ apply raises_exceptions_ret
    | apply raises_exceptions_lift; 
      first [ by intros ? ->%kwargs_Raise | by intros ? ->%getattr_Raise ]
    | apply raises_exceptions_open_read
    | apply raises_exceptions_get_stencil_module_path
    | apply raises_exceptions_bind; [|intros ?]
    | case_match ].
Qed.

(** *** Checking and updating *)

Lemma check_cache_true b id s :
  (run (check_cache b id) s).1 = Ok true ↔
  ∃ s1 content record,
    run cache_setup s = (Ok (), s1)
    ∧ files s !! cache_info_path b id = Some (FData content)
    ∧ pickle_load content = Ok record
    ∧ isinstance_dict record = true
    ∧ record_valid b id record s1.
Proof.
  unfold check_cache. rewrite try_except_true.
  rewrite run_bind, get_cache_info_path_run.
  pose proof (cache_setup_files s) as Hfiles.
  destruct (run cache_setup s) as [[[]|e] s1]; cbn [snd] in Hfiles.
  2: { split; [done|]. by intros (? & ? & ? & [=] & _). }
  rewrite run_bind.
  destruct (run (open_read _) s1) as [[c|e] s1'] eqn:Hr.
  - apply open_read_Ok in Hr as [Hc ->]. rewrite Hfiles in Hc.
    rewrite run_bind, run_lift.
    destruct (pickle_load c) as [record|e] eqn:Hload.
    2: { split; [done|]. intros (? & ? & ? & [= <-] & ? & ? & _). congruence. }
    rewrite run_bind.
    destruct (isinstance_dict record) eqn:Hdict.
    + rewrite run_ret, validate_cache_info_true. split.
      * intros ?. by exists s1, c, record.
      * intros (? & ? & ? & [= <-] & ? & ? & _ & ?). congruence.
    + split; [done|]. intros (? & ? & ? & [= <-] & ? & ? & ? & _). congruence.
  - split; [done|]. intros (? & c & ? & [= <-] & Hc & _).
    rewrite <- Hfiles in Hc. apply open_read_data in Hc. congruence.
Qed.

(** [check_cache] raises exactly what [pickle.load] raises outside
    [Exception] on the content of the metadata file. *)
Lemma check_cache_Raise b id s e :
  (run (check_cache b id) s).1 = Raise e ↔
  is_exception e = false
  ∧ ∃ s1 content,
      run cache_setup s = (Ok (), s1)
      ∧ files s !! cache_info_path b id = Some (FData content)
      ∧ pickle_load content = Raise e.
Proof.
  unfold check_cache. rewrite try_except_Raise.
  rewrite run_bind, get_cache_info_path_run.
  pose proof (cache_setup_files s) as Hfiles.
  destruct (run cache_setup s) as [[[]|e1] s1] eqn:Hs; cbn [snd] in Hfiles.
  2: { cbn. split.
       - intros [[= ->] He].
         pose proof (raises_exceptions_cache_setup _ _ _ Hs). congruence.
       - by intros (_ & ? & ? & [=] & _). }
  rewrite run_bind.
  destruct (run (open_read _) s1) as [[c|e2] s1'] eqn:Hr.
  - apply open_read_Ok in Hr as [Hc ->]. rewrite Hfiles in Hc.
    rewrite run_bind, run_lift.
    destruct (pickle_load c) as [record|e2] eqn:Hload.
    + rewrite run_bind. destruct (isinstance_dict record).
      * rewrite run_ret.
        destruct (validate_cache_info_returns b id record s1)
          as (r & s2 & ->). cbn.
        split; [by intros [[=] _]|].
        intros (_ & ? & ? & [= <-] & ? & ?). congruence.
      * cbn. split; [by intros [[= <-] [=]]|].
        intros (_ & ? & ? & [= <-] & ? & ?). congruence.
    + cbn. split.
      * intros [[= ->] He]. split; [done|]. by exists s1, c.
      * intros (He & ? & ? & [= <-] & ? & ?). split; [congruence|done].
  - cbn. split.
    + intros [[= ->] He].
      pose proof (raises_exceptions_open_read _ _ _ _ Hr). congruence.
    + intros (_ & ? & c & [= <-] & Hc & _).
      rewrite <- Hfiles in Hc. apply open_read_data in Hc. congruence.
Qed.

(** A check that neither answers [true] nor raises answers [false]. *)
Lemma check_cache_false b id s :
  (run (check_cache b id) s).1 ≠ Ok true →
  (∀ e, (run (check_cache b id) s).1 ≠ Raise e) →
  (run (check_cache b id) s).1 = Ok false.
Proof.
  destruct (run (check_cache b id) s).1 as [[]|e]; [done|done|].
  intros _ He. by destruct (He e).
Qed.


Lemma update_cache_Ok b id extra s s2 :
  run (update_cache b id extra) s = (Ok (), s2) →
  ∃ source,
    files s !! module_path b id = Some (FData source)
    ∧ files s2 = <[cache_info_path b id :=
                     FData (pickle_dumps (cache_record b id source extra))]>
                   (files s)
    ∧ dirs s ⊆ dirs s2
    ∧ root_exists s2.
Proof.
  unfold update_cache, generate_cache_info.
  rewrite !run_bind, get_stencil_module_path_run.
  pose proof (cache_setup_files s) as Hfiles.
  destruct (run cache_setup s) as [[[]|e] s1] eqn:Hs; [|done].
  cbn [snd] in Hfiles.
  assert (Hd1 : dirs s ⊆ dirs s1).
  { revert Hs. unfold cache_setup. rewrite run_bind; cbn.
    destruct (_ || _)%bool; cbn; [by intros [= <-]|].
    by intros (_ & ? & _)%os_makedirs_Ok. }
  apply cache_setup_Ok in Hs.
  rewrite run_bind.
  destruct (run (open_read _) s1) as [[source|e] s1'] eqn:Hr; [|done].
  apply open_read_Ok in Hr as [Hsrc ->]. rewrite Hfiles in Hsrc.
  rewrite run_ret, run_bind, get_cache_info_path_run, cache_setup_exists
    by done.
  rewrite run_bind.
  destruct (run (os_makedirs _) s1) as [[[]|e] s3] eqn:Hm; [|done].
  apply os_makedirs_Ok in Hm as (Hf3 & Hd3 & _).
  intros [Hf2 Hd2]%open_write_Ok.
  exists source. split; [done|]. split; [by rewrite Hf2, Hf3, Hfiles|].
  split; [rewrite Hd2; by etrans|].
  apply (root_exists_mono s3); [right; eauto | by rewrite Hd2 |].
  apply (root_exists_mono s1); [by left | done | done].
Qed.

(** *** The record [update_cache] writes *)

Lemma cache_record_field b id source extra k v :
  (k, v) ∈ validated_fields b id source →
  record_field (cache_record b id source extra) k =
  Some (default v (dict_get (rev extra) k)).
Proof.
  intros Hk. unfold record_field, cache_record.
  rewrite kwargs_to_pydict, dict_get_display, rev_app_distr, dict_get_app.
  destruct (dict_get (rev extra) k) as [v'|]; [done|].
  unfold validated_fields in Hk. cbn.
  repeat (apply elem_of_cons in Hk as [[= -> ->]|Hk]; [done|]).
  by apply elem_of_nil in Hk.
Qed.

Lemma dict_get_rev_In (d : strdict) k v :
  dict_get (rev d) k = Some v → (k, v) ∈ d.
Proof.
  intros ?%dict_get_In. by apply list_elem_of_In, in_rev, list_elem_of_In.
Qed.

Lemma read_module_data b id s source :
  root_exists s →
  files s !! module_path b id = Some (FData source) →
  read_module b id s = Ok source.
Proof.
  intros Hroot Hsrc. unfold read_module.
  rewrite run_bind, get_stencil_module_path_run, cache_setup_exists by done.
  by rewrite (open_read_data _ _ source).
Qed.

(** *** The claims on the cache *)

(** C1 (validation): [validate_cache_info] never raises; it returns true
    exactly when the module file can be read and the record, a mapping
    with string keys, holds the backend, the stencil name, the stencil
    version and the hash of the module text read; in every other case (an
    exception while reading, a missing field, a value or a record of
    another type) it returns false. *)
Theorem validate_cache_info_iff b id record s :
  (∃ r s', run (validate_cache_info b id record) s = (Ok r, s'))
  ∧ ((run (validate_cache_info b id record) s).1 = Ok true
     ↔ record_valid b id record s)
  ∧ ((run (validate_cache_info b id record) s).1 = Ok false
     ↔ ¬ record_valid b id record s).
Proof.
  split; [apply validate_cache_info_returns|].
  split; [apply validate_cache_info_true|].
  rewrite <- validate_cache_info_true.
  destruct (validate_cache_info_returns b id record s) as (r & s' & ->).
  destruct r; cbn; split; congruence.
Qed.

(** C2, as amended (round trip): when the module file exists, the extra
    info gives none of the four validated fields another value than the
    standard one, and [pickle] stores the record faithfully, a check that
    follows a successful update returns true. *)
Theorem update_then_check b id extra s s2 source :
  files s !! module_path b id = Some (FData source) →
  Forall (λ kv, ∀ v, (kv.1, v) ∈ extra → v = kv.2)
    (validated_fields b id source) →
  pickle_faithful (cache_record b id source extra) →
  run (update_cache b id extra) s = (Ok (), s2) →
  (run (check_cache b id) s2).1 = Ok true.
Proof.
  intros Hsrc Hextra Hpickle (src' & Hsrc' & Hf2 & _ & Hroot)%update_cache_Ok.
  assert (src' = source) as -> by congruence.
  apply check_cache_true.
  exists s2, (pickle_dumps (cache_record b id source extra)),
    (cache_record b id source extra).
  split; [by apply cache_setup_exists|].
  split; [by rewrite Hf2, lookup_insert_eq|].
  split; [done|]. split; [done|].
  exists source. split.
  - apply read_module_data; [done|].
    rewrite Hf2, lookup_insert_ne; [done | apply cache_info_path_ne].
  - apply Forall_forall. intros [k v] Hk.
    rewrite (cache_record_field _ _ _ _ _ _ Hk). cbn [fst snd]. f_equal.
    destruct (dict_get (rev extra) k) as [v'|] eqn:E; [|done]. cbn.
    apply dict_get_rev_In in E.
    by apply (proj1 (Forall_forall _ _) Hextra (k, v) Hk).
Qed.

(** A text without CR is read back as it was written. *)
Lemma universal_newlines_no_CR raw :
  "013"%char ∉ list_ascii_of_string raw → universal_newlines raw = raw.
Proof.
  induction raw as [|c raw IH]; [done|].
  cbn [list_ascii_of_string universal_newlines]. intros Hnot.
  destruct (Ascii.eqb_spec c "013") as [->|_].
  - destruct Hnot. by left.
  - rewrite IH; [done|]. intros ?. apply Hnot. by right.
Qed.

(** C3, as amended (tamper detection): after a successful update, when the
    module file is rewritten and the text a read in text mode returns
    from it (its characters with the line ends CR LF and CR as LF) has
    another hash than the text read at the update, the check returns
    false, provided the extra info did not store that very hash under the
    key [module_shash]. *)
Theorem tampered_module_fails_check b id extra s s2 source raw' :
  files s !! module_path b id = Some (FData source) →
  pickle_faithful (cache_record b id source extra) →
  run (update_cache b id extra) s = (Ok (), s2) →
  shash (universal_newlines raw') ≠ shash source →
  (∀ v, ("module_shash", v) ∈ extra →
        v ≠ PStr (shash (universal_newlines raw'))) →
  (run (check_cache b id) (rewrite_module b id raw' s2)).1 = Ok false.
Proof.
  intros Hsrc Hpickle (src' & Hsrc' & Hf2 & _ & Hroot)%update_cache_Ok
    Hhash Hextra.
  assert (src' = source) as -> by congruence.
  unfold rewrite_module. set (source' := universal_newlines raw') in *.
  assert (Hroot' : root_exists (tamper b id source' s2)).
  { apply (root_exists_mono s2); [right; eauto | done | done]. }
  assert (Hmeta : files (tamper b id source' s2) !! cache_info_path b id
                  = Some (FData (pickle_dumps
                                   (cache_record b id source extra)))).
  { cbn [tamper files].
    by rewrite lookup_insert_ne, Hf2, lookup_insert_eq
      by (apply not_eq_sym, cache_info_path_ne). }
  unfold pickle_faithful in Hpickle.
  apply check_cache_false.
  2: { intros e (_ & s1 & content & _ & Hc & Hload)%check_cache_Raise.
       congruence. }
  intros (s1 & content & record & Hs1 & Hc & Hload & _ & Hvalid)%check_cache_true.
  rewrite cache_setup_exists in Hs1 by done. injection Hs1 as <-.
  assert (record = cache_record b id source extra) as -> by congruence.
  destruct Hvalid as (src & Hread & Hfields).
  rewrite (read_module_data _ _ _ source') in Hread;
    [|done|by cbn; rewrite lookup_insert_eq].
  injection Hread as <-.
  apply Forall_forall with (x := ("module_shash", PStr (shash source')))
    in Hfields; [|unfold validated_fields; set_solver].
  cbn [fst snd] in Hfields.
  rewrite (cache_record_field _ _ source _ _ (PStr (shash source)))
    in Hfields by (unfold validated_fields; set_solver).
  destruct (dict_get (rev extra) "module_shash") as [v'|] eqn:E;
    cbn in Hfields.
  - apply dict_get_rev_In, Hextra in E. congruence.
  - congruence.
Qed.


(** C5 (errors of an update reach the caller): [update_cache] has no
    handler.  An exception raised while the module file is read, or while
    the metadata record is written, is the outcome of [update_cache]; in
    particular it raises when the module file is missing. *)
Theorem update_cache_propagates b id extra s :
  (∀ p s1 e s2,
     run (get_stencil_module_path b id) s = (Ok p, s1) →
     run (open_read p) s1 = (Raise e, s2) →
     run (update_cache b id extra) s = (Raise e, s2))
  ∧ (∀ info s1 p s2 s3 e s4,
       run (generate_cache_info b id extra) s = (Ok info, s1) →
       run (get_cache_info_path b id) s1 = (Ok p, s2) →
       run (os_makedirs (os_path_dirname p)) s2 = (Ok (), s3) →
       run (open_write p (pickle_dumps (to_pydict info))) s3 = (Raise e, s4) →
       run (update_cache b id extra) s = (Raise e, s4))
  ∧ (files s !! module_path b id = None →
     ∃ e s', run (update_cache b id extra) s = (Raise e, s')).
Proof.
  split; [|split].
  - intros p s1 e s2 Hp Hr. unfold update_cache, generate_cache_info.
    by rewrite !run_bind, Hp, run_bind, Hr.
  - intros info s1 p s2 s3 e s4 Hg Hp Hm Hw. unfold update_cache.
    by rewrite run_bind, Hg, run_bind, Hp, run_bind, Hm.
  - intros Hnone. unfold update_cache, generate_cache_info.
    rewrite !run_bind, get_stencil_module_path_run.
    pose proof (cache_setup_files s) as Hfiles.
    destruct (run cache_setup s) as [[[]|e] s1]; [|by eauto].
    cbn [snd] in Hfiles. rewrite run_bind.
    destruct (run (open_read (module_path b id)) s1) as [[c|e] s1'] eqn:Hr;
      [|by eauto].
    apply open_read_Ok in Hr as [Hc _]. congruence.
Qed.

(** *** The library version is not validated *)

Lemma kwargs_pydict_set items k v :
  kwargs (PDict (pydict_set items k v))
  = (λ ns, dict_set ns k v) <$> kwargs (PDict items).
Proof.
  unfold kwargs.
  induction items as [|[k' v'] items IH]; cbn; [done|].
  destruct k' as [| | |k'| |]; cbn; try done.
  destruct (String.eqb k' k) eqn:E; cbn.
  - destruct (mapM _ items); cbn; [|done]. by rewrite E.
  - rewrite IH. destruct (mapM _ items); cbn; [|done]. by rewrite E.
Qed.

Lemma kwargs_pydict_del items k :
  kwargs (PDict (pydict_del items k))
  = (λ ns, dict_del ns k) <$> kwargs (PDict items).
Proof.
  unfold kwargs.
  induction items as [|[k' v'] items IH]; cbn; [done|].
  destruct k' as [| | |k'| |]; cbn; try done.
  destruct (String.eqb k' k) eqn:E; cbn.
  - rewrite IH. destruct (mapM _ items); cbn; [|done]. by rewrite E.
  - rewrite IH. destruct (mapM _ items); cbn; [|done]. by rewrite E.
Qed.

Lemma dict_get_del_ne (d : strdict) k k' :
  k ≠ k' → dict_get (dict_del d k) k' = dict_get d k'.
Proof.
  intros Hne. induction d as [|[k0 v0] d IH]; simpl; [done|].
  destruct (String.eqb k0 k) eqn:E; simpl; [|by rewrite IH].
  apply String.eqb_eq in E as ->.
  by rewrite (proj2 (String.eqb_neq k k')).
Qed.

Lemma gt4py_version_not_validated k :
  k ∈ ["backend"; "stencil_name"; "stencil_version"; "module_shash"] →
  "gt4py_version" ≠ k.
Proof.
  rewrite !elem_of_cons, elem_of_nil.
  by intros [->|[->|[->|[->|[]]]]].
Qed.

(** Records that agree on the four validated fields are equally valid. *)
Lemma record_valid_ext b id record record' s :
  (∀ k, k ∈ ["backend"; "stencil_name"; "stencil_version"; "module_shash"] →
        record_field record' k = record_field record k) →
  record_valid b id record s → record_valid b id record' s.
Proof.
  intros Hagree (source & Hread & Hfields). exists source. split; [done|].
  revert Hfields. unfold validated_fields.
  rewrite !Forall_cons, !Forall_nil. cbn [fst snd].
  rewrite !Hagree; [done|set_solver..].
Qed.

Lemma validate_cache_info_agree b id record record' s :
  (∀ k, k ∈ ["backend"; "stencil_name"; "stencil_version"; "module_shash"] →
        record_field record' k = record_field record k) →
  (run (validate_cache_info b id record') s).1
  = (run (validate_cache_info b id record) s).1.
Proof.
  intros Hagree.
  assert ((run (validate_cache_info b id record') s).1 = Ok true
          ↔ (run (validate_cache_info b id record) s).1 = Ok true) as Hiff.
  { rewrite !validate_cache_info_true. split; apply record_valid_ext;
      [intros; symmetry|]; auto. }
  destruct (validate_cache_info_returns b id record s) as (r & s1 & Hr).
  destruct (validate_cache_info_returns b id record' s) as (r' & s1' & Hr').
  rewrite Hr, Hr' in *. cbn in *.
  destruct r, r'; intuition congruence.
Qed.

(** C10 (the library version is not validated): storing another value
    under [gt4py_version] in a record, or removing the key, leaves the
    outcome of validation as it was; and the record [update_cache] writes
    always has that key. *)
Theorem validate_ignores_gt4py_version b id items s :
  (∀ v, (run (validate_cache_info b id
                (PDict (pydict_set items "gt4py_version" v))) s).1
        = (run (validate_cache_info b id (PDict items)) s).1)
  ∧ (run (validate_cache_info b id
            (PDict (pydict_del items "gt4py_version"))) s).1
    = (run (validate_cache_info b id (PDict items)) s).1
  ∧ ∀ source extra,
      is_Some (record_field (cache_record b id source extra) "gt4py_version").
Proof.
  split; [|split]; [intros v| |];
    [apply validate_cache_info_agree; intros k Hk; unfold record_field..|].
  3: { intros source extra. unfold record_field, cache_record.
       rewrite kwargs_to_pydict, dict_get_display, rev_app_distr, dict_get_app.
       by destruct (dict_get (rev extra) "gt4py_version"). }
  - rewrite kwargs_pydict_set. destruct (kwargs (PDict items)); cbn; [|done].
    by apply dict_get_set_ne, gt4py_version_not_validated.
  - rewrite kwargs_pydict_del. destruct (kwargs (PDict items)); cbn; [|done].
    by apply dict_get_del_ne, gt4py_version_not_validated.
Qed.

End BuildCacheFacts.

(** *** The claims in a concrete cache *)

Section BuildCacheExamples.
#[local] Existing Instance example_env.

(** [validate_cache_info] on a record read back from the cache. *)
Example validate_cache_info_example :
  (run (validate_cache_info "numpy" example_id
          (to_pydict [("backend", PStr "numpy");
                      ("stencil_name", PStr "pkg.sub.stencil");
                      ("stencil_version", PStr "abc123");
                      ("module_shash", PStr "sha:def run(): pass")]))
       example_fs).1 = Ok true
  ∧ (run (validate_cache_info "numpy" example_id
            (to_pydict [("backend", PStr "numpy");
                        ("stencil_name", PStr "pkg.sub.stencil");
                        ("stencil_version", PStr "abc123")]))
         example_fs).1 = Ok false
  ∧ (run (validate_cache_info "numpy" example_id (PList [])) example_fs).1
    = Ok false.
Proof. by vm_compute. Qed.

(** An update with extra info that shadows nothing, then a check. *)
Lemma update_then_check_witness :
  (run (check_cache "numpy" example_id)
       (run (update_cache "numpy" example_id [("opt_level", PStr "O3")])
            example_fs).2).1 = Ok true.
Proof.
  apply (update_then_check "numpy" example_id [("opt_level", PStr "O3")]
           example_fs _ "def run(): pass").
  - reflexivity.
  - repeat constructor; intros v Hv;
      apply list_elem_of_singleton in Hv; discriminate Hv.
  - reflexivity.
  - rewrite (surjective_pairing (run (update_cache _ _ _) example_fs)) at 1.
    f_equal; vm_compute; reflexivity.
Defined.

(** C2 as stated fails: extra info that stores another backend under the
    key [backend] makes the check after the update return false, although
    the module file is there and unchanged and the record is stored
    faithfully. *)
Lemma update_then_check_shadowed :
  let extra := [("backend", PStr "gtx86")] in
  let s2 := (run (update_cache "numpy" example_id extra) example_fs).2 in
  (run (update_cache "numpy" example_id extra) example_fs).1 = Ok ()
  ∧ files example_fs !! module_path "numpy" example_id
    = Some (FData "def run(): pass")
  ∧ files s2 !! module_path "numpy" example_id
    = Some (FData "def run(): pass")
  ∧ pickle_faithful (cache_record "numpy" example_id "def run(): pass" extra)
  ∧ (run (check_cache "numpy" example_id) s2).1 = Ok false.
Proof. by vm_compute. Qed.

(** The module file is overwritten after the update. *)
Lemma tampered_module_fails_check_witness :
  (run (check_cache "numpy" example_id)
       (rewrite_module "numpy" example_id "def run(): return 1"
          (run (update_cache "numpy" example_id [("opt_level", PStr "O3")])
               example_fs).2)).1 = Ok false.
Proof.
  apply (tampered_module_fails_check "numpy" example_id
           [("opt_level", PStr "O3")] example_fs _ "def run(): pass").
  - reflexivity.
  - reflexivity.
  - rewrite (surjective_pairing (run (update_cache _ _ _) example_fs)) at 1.
    f_equal; vm_compute; reflexivity.
  - discriminate.
  - intros v Hv. apply list_elem_of_singleton in Hv. discriminate Hv.
Defined.

(** C3 as stated fails: when the extra info stored the hash of the text
    the module file is later overwritten with, the check accepts the
    overwritten file. *)
Lemma tampered_module_passes_check :
  let extra := [("module_shash", PStr (shash "def run(): return 1"))] in
  let s2 := (run (update_cache "numpy" example_id extra) example_fs).2 in
  (run (update_cache "numpy" example_id extra) example_fs).1 = Ok ()
  ∧ shash "def run(): return 1" ≠ shash "def run(): pass"
  ∧ pickle_faithful (cache_record "numpy" example_id "def run(): pass" extra)
  ∧ (run (check_cache "numpy" example_id)
         (rewrite_module "numpy" example_id "def run(): return 1" s2)).1
    = Ok true.
Proof. by vm_compute. Qed.

(** A rewrite that only changes the line ends goes unnoticed: the module
    file is rewritten with CR LF for each LF, its characters and their
    hash change, and the check still returns true. *)
Example rewritten_line_ends_pass_check :
  let source := "def run():" +:+ String "010" "    pass" +:+ String "010" "" in
  let raw' := "def run():" +:+ String "013" (String "010" "    pass")
                +:+ String "013" (String "010" "") in
  let s := {| files := {[ example_module := FData source ]}; dirs := ∅ |} in
  let s2 := (run (update_cache "numpy" example_id []) s).2 in
  (run (update_cache "numpy" example_id []) s).1 = Ok ()
  ∧ raw' ≠ source
  ∧ shash raw' ≠ shash source
  ∧ (run (check_cache "numpy" example_id)
         (rewrite_module "numpy" example_id raw' s2)).1 = Ok true.
Proof. by vm_compute. Qed.



(** An update in an empty file system: the module file is missing. *)
Lemma update_cache_propagates_witness :
  ∃ e s', run (update_cache "numpy" example_id [])
              {| files := ∅; dirs := ∅ |} = (Raise e, s').
Proof.
  apply (proj2 (proj2 (update_cache_propagates "numpy" example_id []
                         {| files := ∅; dirs := ∅ |}))).
  reflexivity.
Defined.

(** A write that fails reaches the caller of [update_cache]. *)
Example update_cache_write_denied_example :
  (run (update_cache "numpy" example_id [])
       {| files := <[cache_info_path "numpy" example_id := FDenied]>
                     (files example_fs);
          dirs := ∅ |}).1 = Raise PermissionError.
Proof. by vm_compute. Qed.

(** A record written by another library version validates. *)
Example validate_ignores_gt4py_version_example :
  (run (validate_cache_info "numpy" example_id
          (to_pydict [("gt4py_version", PStr "0.0.9");
                      ("backend", PStr "numpy");
                      ("stencil_name", PStr "pkg.sub.stencil");
                      ("stencil_version", PStr "abc123");
                      ("module_shash", PStr "sha:def run(): pass")]))
       example_fs).1 = Ok true.
Proof. by vm_compute. Qed.

End BuildCacheExamples.

(** * Further properties of the upcasting pass *)

Section GtirMore.
Context {DataType : Type} `{!DTypes DataType}.

Local Arguments _update_node : simpl never.
Local Arguments _upcast_node : simpl never.

(** *** What the visitor keeps *)

Lemma inserts_refl (e : Expr DataType) : inserts e e.
Proof.
  induction e using Expr_nested_ind;
    [apply inserts_BinaryOp | apply inserts_TernaryOp
    | apply inserts_NativeFuncCall | apply inserts_Cast
    | apply inserts_OtherExpr]; try done; by apply Forall_Forall2_diag.
Qed.

Lemma inserts_upcast_node T (e e' : Expr DataType) :
  inserts e e' → inserts e (_upcast_node T e').
Proof. unfold _upcast_node. case_decide; [done | by constructor]. Qed.

Lemma Forall2_inserts_upcast T (l l' : list (Expr DataType)) :
  Forall2 inserts l l' → Forall2 inserts l (_upcast_node T <$> l').
Proof.
  induction 1; cbn; constructor; auto using inserts_upcast_node.
Qed.

Lemma visit_inserts (e : Expr DataType) r :
  visit e = Ok r → inserts e (obj r).
Proof.
  revert r; induction e as [op l r d IHl IHr|c t f d IHc IHt IHf|fn args d IH
                            |d x IHx|k cs d IH] using Expr_nested_ind;
    intros res; cbn [visit].
  - intros (vl & Hl & (vr & Hr & H)%bind_Ok)%bind_Ok.
    apply bind_Ok in H as (ups & Hups & H).
    apply upcast_nodes_Ok in Hups as (T & _ & ->). cbn in H.
    rewrite update_BinaryOp in H. injection H as <-.
    rewrite obj_if_same by (by intros [-> ->]).
    constructor; auto using inserts_upcast_node.
  - intros (vt & Ht & (vf & Hf & H)%bind_Ok)%bind_Ok.
    apply bind_Ok in H as (ups & Hups & H).
    apply upcast_nodes_Ok in Hups as (T & _ & ->). cbn in H.
    apply bind_Ok in H as (vc & Hc & H).
    rewrite update_TernaryOp in H. injection H as <-.
    rewrite obj_if_same by (by intros (-> & -> & ->)).
    constructor; auto using inserts_upcast_node.
  - intros (args' & Hargs & (ups & Hups & H)%bind_Ok)%bind_Ok.
    rewrite update_NativeFuncCall in H. injection H as <-.
    rewrite obj_if_same by (by intros ->).
    apply upcast_nodes_Ok in Hups as (T & Hne & ->).
    constructor. apply Forall2_inserts_upcast.
    by apply (mapM_visit_sound inserts) in Hargs.
  - intros (vx & Hx & H)%bind_Ok.
    rewrite update_Cast in H. injection H as <-.
    rewrite obj_if_same by (by intros ->).
    apply inserts_Cast. auto.
  - intros (cs' & Hcs & H)%bind_Ok.
    rewrite update_OtherExpr in H. injection H as <-.
    rewrite obj_if_same by (by intros ->).
    constructor. by apply (mapM_visit_sound inserts) in Hcs.
Qed.

(** The pass only inserts casts: the tree it returns is the tree it was
    given with [Cast] nodes put around some expressions. *)
Theorem upcast_only_inserts_casts (t : Node DataType) r :
  upcast t = Ok r → inserts_node t (obj r).
Proof.
  unfold upcast. revert r.
  induction t as [l x|k es ns IH] using Node_nested_ind;
    intros res; cbn [visit_node].
  - intros (vr & Hr & H)%bind_Ok.
    rewrite update_ParAssignStmt in H. injection H as <-.
    rewrite obj_if_same by (by intros ->).
    constructor. by apply inserts_upcast_node, visit_inserts.
  - intros (es' & Hes & (ns' & Hns & H)%bind_Ok)%bind_Ok.
    rewrite update_OtherNode in H. injection H as <-.
    rewrite obj_if_same by (by intros [-> ->]).
    constructor.
    + apply (mapM_visit_sound inserts) in Hes; [done|].
      apply Forall_true. intros ? ?. apply visit_inserts.
    + apply mapM_Ok in Hns. clear Hes.
      induction Hns as [|x y xs ys Hxy _ IHxs]; [constructor|].
      inversion IH; subst.
      apply fmap_Ok in Hxy as (rx & Hrx & ->). constructor; auto.
Qed.

(** The postcondition in the docstring of the pass: in the tree returned
    every dtype transition is explicit. *)
Theorem upcast_postcondition (t : Node DataType) r :
  upcast t = Ok r → coerced_node (obj r).
Proof. apply visit_node_sound. Qed.

Lemma visit_dtype (e : Expr DataType) r :
  visit e = Ok r → dtype_of (obj r) = dtype_of e.
Proof. intros H. by apply visit_sound in H as [_ ?]. Qed.

(** The visitor never changes the dtype of an expression: the node it
    returns has the dtype of the node it was given. *)
Theorem visit_keeps_dtype (e : Expr DataType) r :
  visit e = Ok r → dtype_of (obj r) = dtype_of e.
Proof. apply visit_dtype. Qed.

(** *** Sharing *)

Lemma is_same_if {A} (P : Prop) `{!Decision P} (a b : A) :
  (b = a → P) →
  is_same (if decide P then Same a else New b) = true
  ↔ obj (if decide P then Same a else New b) = a.
Proof. intros Hba. case_decide; cbn; [done|]. split; [done|]. tauto. Qed.

(** The visitor allocates only where something changed: it returns the
    object it was given exactly when the value it returns equals the
    value of that object. *)
Theorem visit_shares_unchanged (e : Expr DataType) r :
  visit e = Ok r → (is_same r = true ↔ obj r = e).
Proof.
  destruct e as [op l x d|c t f d|fn args d|d x|k cs d]; cbn [visit].
  - intros (vl & Hl & (vr & Hr & H)%bind_Ok)%bind_Ok.
    apply bind_Ok in H as (ups & Hups & H).
    apply upcast_nodes_Ok in Hups as (T & _ & ->). cbn in H.
    rewrite update_BinaryOp in H. injection H as <-.
    apply is_same_if. by intros [= -> ->].
  - intros (vt & Ht & (vf & Hf & H)%bind_Ok)%bind_Ok.
    apply bind_Ok in H as (ups & Hups & H).
    apply upcast_nodes_Ok in Hups as (T & _ & ->). cbn in H.
    apply bind_Ok in H as (vc & Hc & H).
    rewrite update_TernaryOp in H. injection H as <-.
    apply is_same_if. by intros [= -> -> ->].
  - intros (args' & Hargs & (ups & Hups & H)%bind_Ok)%bind_Ok.
    rewrite update_NativeFuncCall in H. injection H as <-.
    apply is_same_if. by intros [= ->].
  - intros (vx & Hx & H)%bind_Ok.
    rewrite update_Cast in H. injection H as <-.
    apply is_same_if. by intros [= ->].
  - intros (cs' & Hcs & H)%bind_Ok.
    rewrite update_OtherExpr in H. injection H as <-.
    apply is_same_if. by intros [= ->].
Qed.

(** *** When the pass returns *)

(** The pass returns a tree on every tree without an empty call, and the
    only exception it ever raises is the [ValueError] of an empty call. *)
Theorem upcast_returns_or_empty_call (t : Node DataType) :
  (node_has_empty_call t = false → ∃ r, upcast t = Ok r)
  ∧ (∀ e, upcast t = Raise e →
          e = ValueError ∧ node_has_empty_call t = true).
Proof.
  pose proof (visit_node_outcome t) as Ht. unfold upcast.
  destruct (node_has_empty_call t).
  - split; [done|]. intros e. rewrite Ht. by intros [= <-].
  - destruct Ht as [r ->]. split; [eauto | done].
Qed.

(** *** Promotion *)

Lemma py_max_elem (l : list DataType) T : py_max l = Ok T → T ∈ l.
Proof.
  destruct l as [|x l]; [done|]. cbn. intros [= <-].
  enough (∀ m, foldl (λ m e, if dtype_gt e m then e else m) m l ∈ m :: l)
    by done.
  induction l as [|y l IH]; intros m; cbn; [by left|].
  destruct (dtype_gt y m).
  - right. apply IH.
  - specialize (IH m). apply elem_of_cons in IH as [->|?];
      [by left | by right; right].
Qed.

(** [_upcast_nodes]: the target dtype is the dtype of one of the
    expressions; every expression comes back with the target dtype,
    itself when it already has it and wrapped in one cast otherwise; and
    at least one expression comes back as it is. *)
Theorem upcast_nodes_spec (l l' : list (Expr DataType)) :
  _upcast_nodes l = Ok l' →
  ∃ T, py_max (dtype_of <$> l) = Ok T
    ∧ l' = (λ e, if decide (dtype_of e = T) then e else Cast T e) <$> l
    ∧ Forall (λ e, dtype_of e = T) l'
    ∧ ∃ e, e ∈ l ∧ e ∈ l' ∧ dtype_of e = T.
Proof.
  unfold _upcast_nodes. intros (T & HT & [= <-])%bind_Ok.
  exists T. split; [done|]. split; [done|]. split.
  - apply Forall_fmap, Forall_true. intros e. apply dtype_of_upcast_node.
  - apply py_max_elem, list_elem_of_fmap in HT as (e & -> & He).
    exists e. split; [done|]. split; [|done].
    apply list_elem_of_fmap. exists e. split; [|done].
    by rewrite upcast_node_id.
Qed.

(** *** The rules of the visitor *)

(** [visit_BinaryOp]: both visited operands are brought to the greater of
    their two dtypes, the left one when neither is greater. *)
Theorem visit_BinaryOp_promotes op (l r : Expr DataType) d vl vr :
  visit l = Ok vl →
  visit r = Ok vr →
  ∃ res, visit (BinaryOp op l r d) = Ok res
    ∧ obj res =
      let T := if dtype_gt (dtype_of r) (dtype_of l)
               then dtype_of r else dtype_of l in
      BinaryOp op (_upcast_node T (obj vl)) (_upcast_node T (obj vr)) d.
Proof.
  intros Hl Hr. cbn [visit]. rewrite Hl, Hr. cbn [mbind result_bind].
  unfold _upcast_nodes. cbn.
  rewrite (visit_dtype _ _ Hl), (visit_dtype _ _ Hr).
  rewrite update_BinaryOp. eexists; split; [done|].
  cbn zeta. by rewrite obj_if_same by (intros [? ?]; congruence).
Qed.

(** [visit_TernaryOp]: the two branches are brought to one dtype like the
    operands of a binary operation; the condition is visited and never
    wrapped in a cast, whatever its dtype. *)
Theorem visit_TernaryOp_promotes (c t f : Expr DataType) d vc vt vf :
  visit c = Ok vc →
  visit t = Ok vt →
  visit f = Ok vf →
  ∃ res, visit (TernaryOp c t f d) = Ok res
    ∧ obj res =
      let T := if dtype_gt (dtype_of f) (dtype_of t)
               then dtype_of f else dtype_of t in
      TernaryOp (obj vc) (_upcast_node T (obj vt))
                (_upcast_node T (obj vf)) d.
Proof.
  intros Hc Ht Hf. cbn [visit]. rewrite Ht, Hf. cbn [mbind result_bind].
  unfold _upcast_nodes. cbn.
  rewrite (visit_dtype _ _ Ht), (visit_dtype _ _ Hf).
  rewrite Hc. cbn [mbind result_bind].
  rewrite update_TernaryOp. eexists; split; [done|].
  cbn zeta. by rewrite obj_if_same by (intros (? & ? & ?); congruence).
Qed.

(** [visit_NativeFuncCall]: all visited arguments are brought to one
    dtype, the greatest of the dtypes of the arguments. *)
Theorem visit_NativeFuncCall_promotes fn (args : list (Expr DataType)) d
    vargs :
  Forall2 (λ a v, visit a = Ok v) args vargs →
  args ≠ [] →
  ∃ T res, py_max (dtype_of <$> args) = Ok T
    ∧ visit (NativeFuncCall fn args d) = Ok res
    ∧ obj res = NativeFuncCall fn ((λ v, _upcast_node T (obj v)) <$> vargs) d.
Proof.
  intros Hargs Hne. cbn [visit].
  assert (mapM (λ a, obj <$> visit a) args = Ok (obj <$> vargs)) as ->.
  { apply mapM_Ok. clear Hne.
    induction Hargs as [|a v args vargs Ha _ IH]; cbn; [constructor|].
    constructor; [by rewrite Ha | done]. }
  assert (dtype_of <$> (obj <$> vargs) = dtype_of <$> args) as Hd.
  { clear Hne. induction Hargs as [|a v args vargs Ha _ IH]; cbn; [done|].
    by rewrite (visit_dtype _ _ Ha), IH. }
  cbn [mbind result_bind]. unfold _upcast_nodes. rewrite Hd.
  destruct (py_max (dtype_of <$> args)) as [T|e] eqn:HT;
    [|by destruct args].
  exists T. cbn [mbind result_bind mret result_ret].
  rewrite update_NativeFuncCall. eexists; split; [done|]. split; [done|].
  rewrite obj_if_same by (by intros ->). by rewrite <- list_fmap_compose.
Qed.

End GtirMore.

(** *** The further properties at concrete trees *)

(** A sum of an [int32] and a [float64] literal assigned to a field. *)
Lemma upcast_only_inserts_casts_witness :
  inserts_node
    (ParAssignStmt {| name := "out"; fa_dtype := float32 |}
       (BinaryOp "+" (literal int32) (literal float64) float64))
    (ParAssignStmt {| name := "out"; fa_dtype := float32 |}
       (Cast float32 (BinaryOp "+" (Cast float64 (literal int32))
                                   (literal float64) float64))).
Proof.
  exact (upcast_only_inserts_casts
    (ParAssignStmt {| name := "out"; fa_dtype := float32 |}
       (BinaryOp "+" (literal int32) (literal float64) float64))
    (New _) eq_refl).
Defined.

Lemma upcast_postcondition_witness :
  coerced_node
    (ParAssignStmt {| name := "out"; fa_dtype := float32 |}
       (Cast float32 (BinaryOp "+" (Cast float64 (literal int32))
                                   (literal float64) float64))).
Proof.
  exact (upcast_postcondition
    (ParAssignStmt {| name := "out"; fa_dtype := float32 |}
       (BinaryOp "+" (literal int32) (literal float64) float64))
    (New _) eq_refl).
Defined.

Lemma visit_keeps_dtype_witness :
  dtype_of (BinaryOp "<" (Cast float64 (literal int32)) (literal float64)
              int32) = int32.
Proof.
  exact (visit_keeps_dtype
    (BinaryOp "<" (literal int32) (literal float64) int32)
    (New _) eq_refl).
Defined.

Lemma visit_shares_unchanged_witness :
  is_same (New (BinaryOp "+" (Cast float64 (literal int32))
                  (literal float64) float64)) = true
  ↔ BinaryOp "+" (Cast float64 (literal int32)) (literal float64) float64
    = BinaryOp "+" (literal int32) (literal float64) float64.
Proof.
  exact (visit_shares_unchanged
    (BinaryOp "+" (literal int32) (literal float64) float64)
    (New _) eq_refl).
Defined.

Lemma upcast_returns_or_empty_call_witness :
  ∃ r, upcast (ParAssignStmt {| name := "out"; fa_dtype := float64 |}
                 (NativeFuncCall "min" [literal int32; literal float64]
                    float64)) = Ok r.
Proof.
  apply (proj1 (upcast_returns_or_empty_call _)). reflexivity.
Defined.

(** Three arguments of dtypes [int32], [int32] and [float64]. *)
Lemma upcast_nodes_spec_witness :
  ∃ T, py_max (dtype_of <$> [literal int32; literal int32; literal float64])
       = Ok T
    ∧ [Cast float64 (literal int32); Cast float64 (literal int32);
       literal float64]
      = (λ e, if decide (dtype_of e = T) then e else Cast T e)
          <$> [literal int32; literal int32; literal float64]
    ∧ Forall (λ e, dtype_of e = T)
        [Cast float64 (literal int32); Cast float64 (literal int32);
         literal float64]
    ∧ ∃ e, e ∈ [literal int32; literal int32; literal float64]
        ∧ e ∈ [Cast float64 (literal int32); Cast float64 (literal int32);
               literal float64]
        ∧ dtype_of e = T.
Proof.
  exact (upcast_nodes_spec
           [literal int32; literal int32; literal float64] _ eq_refl).
Defined.

Lemma visit_BinaryOp_promotes_witness :
  ∃ res, visit (BinaryOp "+" (literal int32) (literal float64) float64)
         = Ok res
    ∧ obj res = BinaryOp "+" (Cast float64 (literal int32))
                  (literal float64) float64.
Proof.
  exact (visit_BinaryOp_promotes "+" (literal int32) (literal float64)
           float64 (Same _) (Same _) eq_refl eq_refl).
Defined.

(** The [int32] condition stays as it is. *)
Lemma visit_TernaryOp_promotes_witness :
  ∃ res, visit (TernaryOp (literal int32) (literal float32)
                  (literal float64) float64) = Ok res
    ∧ obj res = TernaryOp (literal int32) (Cast float64 (literal float32))
                  (literal float64) float64.
Proof.
  exact (visit_TernaryOp_promotes (literal int32) (literal float32)
           (literal float64) float64 (Same _) (Same _) (Same _)
           eq_refl eq_refl eq_refl).
Defined.

Lemma visit_NativeFuncCall_promotes_witness :
  ∃ T res,
    py_max (dtype_of <$> [literal int32; literal int32; literal float64])
    = Ok T
    ∧ visit (NativeFuncCall "max"
               [literal int32; literal int32; literal float64] float64)
      = Ok res
    ∧ obj res = NativeFuncCall "max"
        ((λ v, _upcast_node T (obj v))
           <$> [Same (literal int32); Same (literal int32);
                Same (literal float64)]) float64.
Proof.
  apply (visit_NativeFuncCall_promotes "max"
           [literal int32; literal int32; literal float64] float64
           [Same (literal int32); Same (literal int32);
            Same (literal float64)]).
  - repeat constructor.
  - discriminate.
Defined.

(** * Further properties of the build cache *)

Section BuildCacheMore.
Context `{!Env}.

Local Arguments os_path_join : simpl never.
Local Arguments os_path_dirname : simpl never.
Local Arguments drop_last3 : simpl never.
Local Arguments os_makedirs : simpl never.
Local Arguments make_dir : simpl never.
Local Arguments open_read : simpl never.
Local Arguments open_write : simpl never.
Local Arguments get_stencil_module_path : simpl never.
Local Arguments get_cache_info_path : simpl never.
Local Arguments cache_setup : simpl never.

(** *** Computations that leave the files alone *)

Lemma keeps_files_ret {A} (a : A) : keeps_files (mret a).
Proof. by intros s. Qed.

Lemma keeps_files_bind {A B} (m : io A) (f : A → io B) :
  keeps_files m → (∀ a, keeps_files (f a)) → keeps_files (m ≫= f).
Proof.
  intros Hm Hf s. rewrite run_bind. destruct (Hm s) as [Hf1 Hd1].
  destruct (run m s) as [[a|e] s1]; cbn [snd] in *; [|done].
  destruct (Hf a s1) as [Hf2 Hd2]. split; [congruence | by etrans].
Qed.

Lemma keeps_files_open_read p : keeps_files (open_read p).
Proof. intros s. unfold open_read; cbn. by repeat case_match. Qed.

Lemma keeps_files_os_makedirs p : keeps_files (os_makedirs p).
Proof.
  intros s. split; [apply os_makedirs_files|].
  unfold os_makedirs; cbn. repeat case_match; cbn; set_solver.
Qed.

Lemma keeps_files_get_base_path b : keeps_files (get_base_path b).
Proof.
  unfold get_base_path. apply keeps_files_bind; [by intros s|].
  intros ex. apply keeps_files_bind; [|intros; apply keeps_files_ret].
  destruct ex; cbn; [apply keeps_files_ret | apply keeps_files_os_makedirs].
Qed.

Lemma keeps_files_get_stencil_module_path b id :
  keeps_files (get_stencil_module_path b id).
Proof.
  unfold get_stencil_module_path.
  apply keeps_files_bind; [|intros; apply keeps_files_ret].
  unfold get_stencil_package_path.
  apply keeps_files_bind;
    [apply keeps_files_get_base_path | intros; apply keeps_files_ret].
Qed.

Lemma keeps_files_get_cache_info_path b id :
  keeps_files (get_cache_info_path b id).
Proof.
  unfold get_cache_info_path.
  apply keeps_files_bind; [|intros; apply keeps_files_ret].
  apply keeps_files_get_stencil_module_path.
Qed.

(** *** Computations that leave the file system alone *)












(** *** The path functions *)

(** Where the cache root exists, the path functions only compute: they
    return the base path, the module path and the metadata path and
    leave the file system as it was. *)
Theorem path_functions_with_root b id s :
  root_exists s →
  (∃ p, run (get_base_path b) s = (Ok p, s))
  ∧ run (get_stencil_module_path b id) s = (Ok (module_path b id), s)
  ∧ run (get_cache_info_path b id) s = (Ok (cache_info_path b id), s).
Proof.
  intros Hroot. split; [|split].
  - unfold get_base_path. rewrite !run_bind. cbn.
    unfold root_exists in Hroot. rewrite Hroot. cbn. eauto.
  - by rewrite get_stencil_module_path_run, cache_setup_exists.
  - by rewrite get_cache_info_path_run, cache_setup_exists.
Qed.

Lemma list_ascii_of_append (a b : string) :
  list_ascii_of_string (a +:+ b)
  = list_ascii_of_string a ++ list_ascii_of_string b.
Proof.
  induction a as [|x a IH]; [done|]. rewrite append_cons. cbn. by f_equal.
Qed.

Lemma list_ascii_of_string_inj (a b : string) :
  list_ascii_of_string a = list_ascii_of_string b → a = b.
Proof.
  intros E. apply (f_equal string_of_list_ascii) in E.
  by rewrite !string_of_list_ascii_of_string in E.
Qed.

Lemma append_cancel_r (a b t : string) : a +:+ t = b +:+ t → a = b.
Proof.
  intros E. apply (f_equal list_ascii_of_string) in E.
  rewrite !list_ascii_of_append in E.
  by apply app_inv_tail, list_ascii_of_string_inj in E.
Qed.


Lemma os_path_join_single (a b : string) :
  startswith_sep b = false →
  os_path_join a [b]
  = (if (String.eqb a "" || endswith_sep a)%bool then a else a +:+ "/") +:+ b.
Proof.
  intros Hb. unfold os_path_join. cbn [foldl]. rewrite Hb.
  destruct (_ || _)%bool; [done|]. by rewrite append_assoc.
Qed.

(** The metadata file is the module file with the extension [.py]
    replaced by [.cacheinfo]: the slice [[:-3]] removes exactly the
    extension, so the two paths always differ. *)
Theorem get_cache_info_path_extension b id s p s' :
  run (get_cache_info_path b id) s = (Ok p, s') →
  ∃ q, run (get_stencil_module_path b id) s = (Ok (q +:+ ".py"), s')
    ∧ p = q +:+ ".cacheinfo".
Proof.
  rewrite get_cache_info_path_run, get_stencil_module_path_run.
  destruct (run cache_setup s) as [[[]|e] s1]; [|done].
  intros [= <- <-]. unfold cache_info_path.
  destruct (module_path_py b id) as [q ->]. exists q.
  by rewrite drop_last3_py.
Qed.

Lemma module_path_prefix :
  ∃ pre : string → string → string, ∀ b id,
    module_path b id
    = pre b (qualified_name id)
      +:+ "m_" +:+ List.last (split_dot (qualified_name id)) ""
      +:+ "__" +:+ version id +:+ ".py".
Proof.
  exists (λ b q,
    let pkg :=
      os_path_join
        (os_path_join (os_path_join root_path [dir_name])
           ["py" +:+ dec version_info_major +:+ dec version_info_minor
                 +:+ "_" +:+ dec api_version; slugify b])
        (removelast (split_dot q)) in
    if (String.eqb pkg "" || endswith_sep pkg)%bool then pkg
    else pkg +:+ "/").
  intros b id. unfold module_path.
  rewrite (os_path_join_single _ (get_stencil_module_name id false +:+ ".py"))
    by done.
  cbn zeta. f_equal.
  unfold get_stencil_module_name, get_stencil_class_name.
  by rewrite !append_assoc.
Qed.

(** Two versions of one stencil never share a module file or a metadata
    file. *)
Theorem paths_separate_versions b id id' :
  qualified_name id = qualified_name id' →
  version id ≠ version id' →
  module_path b id ≠ module_path b id'
  ∧ cache_info_path b id ≠ cache_info_path b id'.
Proof.
  intros Hq Hv.
  assert (Hm : module_path b id ≠ module_path b id').
  { destruct module_path_prefix as [pre Hpre]. rewrite !Hpre, <- Hq.
    intros E%(inj (String.app _))%(inj (String.app "m_")).
    apply (inj (String.app _)), (inj (String.app "__")) in E.
    by apply append_cancel_r in E. }
  split; [done|]. unfold cache_info_path.
  destruct (module_path_py b id) as [q Hq1], (module_path_py b id')
    as [q' Hq2].
  rewrite Hq1, Hq2, !drop_last3_py in *.
  intros ->%append_cancel_r. done.
Qed.

(** *** What an update changes *)

Lemma keeps_files_generate_cache_info b id extra :
  keeps_files (generate_cache_info b id extra).
Proof.
  unfold generate_cache_info.
  apply keeps_files_bind; [apply keeps_files_get_stencil_module_path|].
  intros p. apply keeps_files_bind; [apply keeps_files_open_read|].
  intros; apply keeps_files_ret.
Qed.

Lemma open_write_Raise p data s e s' :
  run (open_write p data) s = (Raise e, s') → s' = s.
Proof. unfold open_write; cbn. repeat case_match; by intros [= <-]. Qed.

(** Where the cache root exists, [update_cache] touches no file but the
    metadata file of its entry, whether it returns or raises, and removes
    no directory; when it returns, the module file was readable and the
    metadata file holds the pickled record built from the module text
    and the extra info. *)
Theorem update_cache_touches_one_file b id extra s r s2 :
  root_exists s →
  run (update_cache b id extra) s = (r, s2) →
  dirs s ⊆ dirs s2
  ∧ (∀ p, p ≠ cache_info_path b id → files s2 !! p = files s !! p)
  ∧ (r = Ok () →
     ∃ source,
       files s !! module_path b id = Some (FData source)
       ∧ files s2 !! cache_info_path b id
         = Some (FData (pickle_dumps (cache_record b id source extra)))).
Proof.
  intros _. destruct r as [[]|e].
  { intros (source & ? & Hf & ? & _)%update_cache_Ok. split; [done|].
    split.
    - intros p Hp. by rewrite Hf, lookup_insert_ne.
    - intros _. exists source. split; [done|].
      by rewrite Hf, lookup_insert_eq. }
  assert (∀ s' : fs, files s' = files s → dirs s ⊆ dirs s' →
            dirs s ⊆ dirs s'
            ∧ (∀ p, p ≠ cache_info_path b id →
                    files s' !! p = files s !! p)
            ∧ (Raise e = Ok () → ∃ source : string,
                 files s !! module_path b id = Some (FData source)
                 ∧ files s' !! cache_info_path b id
                   = Some (FData (pickle_dumps
                                    (cache_record b id source extra)))))
    as Hsame.
  { intros s' Hf Hd. split; [done|]. split; [|done].
    intros p _. by rewrite Hf. }
  unfold update_cache. rewrite run_bind.
  destruct (keeps_files_generate_cache_info b id extra s) as [Hf1 Hd1].
  destruct (run (generate_cache_info b id extra) s) as [[info|e1] s1];
    cbn [snd] in *; [|intros [= <- <-]; by apply Hsame].
  rewrite run_bind.
  destruct (keeps_files_get_cache_info_path b id s1) as [Hf2 Hd2].
  destruct (run (get_cache_info_path b id) s1) as [[p|e2] s1'];
    cbn [snd] in *;
    [|intros [= <- <-]; apply Hsame; [congruence | by etrans]].
  rewrite run_bind.
  destruct (keeps_files_os_makedirs (os_path_dirname p) s1') as [Hf3 Hd3].
  destruct (run (os_makedirs (os_path_dirname p)) s1') as [[[]|e3] s3];
    cbn [snd] in *.
  2: { intros [= <- <-].
       apply Hsame; [congruence | by repeat (etrans; [done|])]. }
  intros Hw. apply open_write_Raise in Hw as ->.
  apply Hsame; [congruence | by repeat (etrans; [done|])].
Qed.

(** *** When a check succeeds *)




(** *** The record *)

(** [generate_cache_info] reads the module file and returns a record in
    which every key of the extra info has the value the extra info gives
    it last, also where the key is one of the standard ones, and the
    other standard keys have their standard values. *)
Theorem generate_cache_info_fields b id extra s info s' :
  run (generate_cache_info b id extra) s = (Ok info, s') →
  ∃ source,
    files s !! module_path b id = Some (FData source)
    ∧ ∀ k, dict_get info k =
        match dict_get (rev extra) k with
        | Some v => Some v
        | None =>
            dict_get [("gt4py_version", PStr gt_version);
                      ("backend", PStr b);
                      ("stencil_name", PStr (qualified_name id));
                      ("stencil_version", PStr (version id));
                      ("module_shash", PStr (shash source))] k
        end.
Proof.
  unfold generate_cache_info. rewrite run_bind, get_stencil_module_path_run.
  pose proof (cache_setup_files s) as Hfiles.
  destruct (run cache_setup s) as [[[]|e] s1]; [|done]. cbn [snd] in Hfiles.
  rewrite run_bind.
  destruct (run (open_read _) s1) as [[source|e] s1'] eqn:Hr; [|done].
  apply open_read_Ok in Hr as [Hsrc ->]. rewrite Hfiles in Hsrc.
  rewrite run_ret. intros [= <- <-]. exists source. split; [done|].
  intros k. rewrite dict_get_display.
  match goal with
  | |- context [rev (?a :: ?b :: ?c :: ?d :: ?e :: extra)] =>
      change (rev (a :: b :: c :: d :: e :: extra))
        with (rev ([a; b; c; d; e] ++ extra))
  end.
  rewrite rev_app_distr, dict_get_app.
  destruct (dict_get (rev extra) k); [done|]. cbn [from_option].
  cbn [rev app dict_get].
  destruct (String.eqb_spec "gt4py_version" k) as [<-|_]; [reflexivity|].
  destruct (String.eqb_spec "backend" k) as [<-|_]; [reflexivity|].
  destruct (String.eqb_spec "stencil_name" k) as [<-|_]; [reflexivity|].
  destruct (String.eqb_spec "stencil_version" k) as [<-|_]; [reflexivity|].
  by destruct (String.eqb_spec "module_shash" k) as [<-|_].
Qed.

(** A record written for one request validates for no other: where the
    extra info touches none of the four validated keys, the record of
    [update_cache] for a backend and a stencil identity validates only
    for that backend, that identity, and a module text of the same
    hash. *)
Theorem record_validates_only_its_request b id source extra b' id' s :
  (∀ k v, (k, v) ∈ extra →
          k ∉ ["backend"; "stencil_name"; "stencil_version"; "module_shash"]) →
  (run (validate_cache_info b' id' (cache_record b id source extra)) s).1
  = Ok true →
  b' = b ∧ id' = id
  ∧ ∃ source', read_module b' id' s = Ok source'
      ∧ shash source' = shash source.
Proof.
  intros Hextra (source' & Hread & Hf)%validate_cache_info_true.
  assert (∀ k v, (k, v) ∈ validated_fields b id source →
            record_field (cache_record b id source extra) k = Some v) as Hrec.
  { intros k v Hk. rewrite (cache_record_field _ _ _ _ _ _ Hk).
    destruct (dict_get (rev extra) k) as [v'|] eqn:E; [|done].
    apply dict_get_rev_In, Hextra in E. exfalso. apply E.
    unfold validated_fields in Hk. rewrite !elem_of_cons, elem_of_nil in Hk.
    rewrite !elem_of_cons. intuition congruence. }
  unfold validated_fields in Hf.
  rewrite !Forall_cons in Hf. cbn [fst snd] in Hf.
  destruct Hf as (Hb & Hn & Hv & Hh & _).
  rewrite (Hrec _ (PStr b)) in Hb by (unfold validated_fields; repeat constructor).
  rewrite (Hrec _ (PStr (qualified_name id))) in Hn
    by (unfold validated_fields; repeat constructor).
  rewrite (Hrec _ (PStr (version id))) in Hv
    by (unfold validated_fields; repeat constructor).
  rewrite (Hrec _ (PStr (shash source))) in Hh
    by (unfold validated_fields; repeat constructor).
  simplify_eq. split; [done|]. split; [|eauto].
  destruct id, id'; cbn in *; congruence.
Qed.

(** *** Entries do not disturb each other *)


(** *** Names *)

Lemma split_dot_nonempty s : split_dot s ≠ [].
Proof. destruct s as [|c s]; cbn; [done|]. by repeat case_match. Qed.

Lemma str_join_cons sep x l :
  l ≠ [] → str_join sep (x :: l) = x +:+ sep +:+ str_join sep l.
Proof. by destruct l. Qed.

Lemma str_join_snoc sep l x :
  l ≠ [] → str_join sep (l ++ [x]) = str_join sep l +:+ sep +:+ x.
Proof.
  induction l as [|y l IH]; [done|]. intros _.
  destruct l as [|z l]; [done|].
  change ((y :: z :: l) ++ [x]) with (y :: ((z :: l) ++ [x])).
  rewrite str_join_cons by done. rewrite IH by done.
  rewrite (str_join_cons sep y (z :: l)) by done.
  by rewrite !append_assoc.
Qed.

(** Joining the components of a name with dots gives the name back. *)
Lemma split_dot_join s : str_join "." (split_dot s) = s.
Proof.
  induction s as [|c s IH]; [done|]. cbn [split_dot].
  pose proof (split_dot_nonempty s) as Hne.
  destruct (Ascii.eqb c ".") eqn:E.
  - apply Ascii.eqb_eq in E as ->. rewrite str_join_cons by done.
    by rewrite IH.
  - destruct (split_dot s) as [|x xs]; [done|].
    destruct xs as [|y xs]; cbn in *; [by rewrite IH|].
    rewrite <- IH. by rewrite append_cons.
Qed.

Lemma split_dot_no_dot s :
  Forall (λ x, "."%char ∉ list_ascii_of_string x) (split_dot s).
Proof.
  induction s as [|c s IH]; cbn [split_dot].
  - repeat constructor. cbn. by apply not_elem_of_nil.
  - destruct (Ascii.eqb c ".") eqn:E.
    + constructor; [cbn; by apply not_elem_of_nil | done].
    + pose proof (split_dot_nonempty s) as Hne.
      destruct (split_dot s) as [|x xs]; [done|].
      inversion IH; subst. constructor; [|done]. cbn.
      apply not_elem_of_cons. split; [|done].
      intros <-. by rewrite Ascii.eqb_refl in E.
Qed.

(** The class name and the package name split the qualified name at its
    last dot: the class name is made of the part after it, which holds
    no dot, and the version; the package name is the root package
    followed by the part before it, or the root package alone when the
    name has no dot. *)
Theorem stencil_names_split_at_last_dot id :
  ∃ unit_name,
    ("."%char ∉ list_ascii_of_string unit_name)
    ∧ get_stencil_class_name id = unit_name +:+ "__" +:+ version id
    ∧ ((qualified_name id = unit_name
        ∧ get_stencil_package_name id = root_package_name)
       ∨ ∃ package,
           qualified_name id = package +:+ "." +:+ unit_name
           ∧ get_stencil_package_name id
             = root_package_name +:+ "." +:+ package).
Proof.
  unfold get_stencil_class_name, get_stencil_package_name.
  pose proof (split_dot_join (qualified_name id)) as Hjoin.
  pose proof (split_dot_no_dot (qualified_name id)) as Hdot.
  pose proof (split_dot_nonempty (qualified_name id)) as Hne.
  revert Hjoin Hdot Hne. generalize (split_dot (qualified_name id)).
  intros comps. destruct comps as [|c cs _] using rev_ind; [done|].
  intros Hjoin Hdot _.
  rewrite List.last_last, removelast_last.
  exists c. split.
  { apply Forall_app in Hdot as [_ Hc]. by inversion Hc. }
  split; [done|].
  destruct cs as [|c0 cs].
  - left. split; [by rewrite <- Hjoin|done].
  - right. exists (str_join "." (c0 :: cs)). split.
    + by rewrite <- Hjoin, str_join_snoc.
    + change ([root_package_name] ++ c0 :: cs)
        with (root_package_name :: c0 :: cs).
      by rewrite str_join_cons.
Qed.

End BuildCacheMore.

(** * Properties of the backend options and of the signature *)

Section BackendFacts.
Context `{!BackendEnv}.

(** *** Options *)

Lemma unknown_options_empty (given : list string)
    (definitions : gmap string OptionInfo) :
  (list_to_set given ∖ dom definitions : gset string) = ∅
  ↔ ∀ k, k ∈ given → is_Some (definitions !! k).
Proof.
  split.
  - intros Hd k Hk. apply elem_of_dom.
    destruct (decide (k ∈ dom definitions)) as [|Hn]; [done|].
    assert (k ∈ (∅ : gset string)) as Hk';
      [|by apply not_elem_of_empty in Hk'].
    rewrite <- Hd. apply elem_of_difference. split; [|done].
    by apply elem_of_list_to_set.
  - intros Hall. apply leibniz_equiv, elem_of_equiv_empty. intros k.
    rewrite elem_of_difference, elem_of_list_to_set, elem_of_dom.
    intros [Hk Hn]. by apply Hn, Hall.
Qed.

(** [_check_options] fails an assertion when the backend defines no
    options; otherwise it returns when every option given is defined, and
    raises [ValueError] when one is not. *)
Theorem check_options_spec definitions options :
  _check_options None options = Raise AssertionError
  ∧ (_check_options (Some definitions) options = Ok ()
     ↔ ∀ k, k ∈ (backend_opts options).*1 → is_Some (definitions !! k))
  ∧ (_check_options (Some definitions) options = Raise ValueError
     ↔ ∃ k, k ∈ (backend_opts options).*1 ∧ definitions !! k = None).
Proof.
  split; [done|]. unfold _check_options.
  pose proof (unknown_options_empty (backend_opts options).*1 definitions)
    as Hempty.
  case_decide as Hd.
  - pose proof (proj1 Hempty Hd) as Hall.
    split; [done|]. split; [done|].
    intros (k & Hk & Hnone). apply Hall in Hk as [? ?]. congruence.
  - split.
    + split; [done|]. intros Hall. by apply Hempty in Hall.
    + split; [|done]. intros _.
      destruct (decide (Exists (λ k, definitions !! k = None)
                          (backend_opts options).*1)) as [Hex|Hno].
      * apply Exists_exists in Hex as (k & ? & ?). eauto.
      * exfalso. apply Hd, Hempty. intros k Hk.
        destruct (definitions !! k) eqn:E; [done|]. exfalso. apply Hno.
        apply Exists_exists. eauto.
Qed.

(** *** The options id *)

Lemma filter_dict_set_other (Q : string * pyval → Prop)
    `{!∀ kv, Decision (Q kv)} (d : strdict) k v :
  (∀ v', ¬ Q (k, v')) →
  filter Q (dict_set d k v) = filter Q d.
Proof.
  intros Hk. induction d as [|[k' v'] d IH]; cbn [dict_set].
  - by rewrite filter_cons_False.
  - destruct (String.eqb k' k) eqn:E.
    + apply String.eqb_eq in E as ->.
      by rewrite !filter_cons_False by done.
    + by rewrite !filter_cons, IH.
Qed.

(** An option that does not take part in versioning, because it is
    undefined or defined with [versioning] false, has no influence on the
    id: setting it to any value gives the same id. *)
Theorem make_options_id_ignores_other_options definitions options k v :
  (∀ info, definitions !! k = Some info → versioning info = false) →
  make_options_id (Some definitions)
    {| options_name := options_name options;
       options_module := options_module options;
       backend_opts := dict_set (backend_opts options) k v |}
  = make_options_id (Some definitions) options.
Proof.
  intros Hk. unfold make_options_id. cbn [options_name options_module
    backend_opts]. do 3 f_equal.
  apply filter_dict_set_other. intros v'. cbn [fst].
  rewrite elem_of_dom. intros [info Hinfo].
  apply map_lookup_filter_Some in Hinfo as [Hinfo Hv]. cbn in Hv.
  apply Hk in Hinfo. congruence.
Qed.

Lemma dict_item_unique (d : strdict) k v1 v2 :
  NoDup d.*1 → (k, v1) ∈ d → (k, v2) ∈ d → v1 = v2.
Proof.
  induction d as [|[k' v'] d IH]; cbn; [by intros _ ?%elem_of_nil|].
  rewrite NoDup_cons. intros [Hk' Hnd].
  rewrite !elem_of_cons. intros [E1|H1] [E2|H2]; simplify_eq; auto.
  - exfalso. apply Hk'. apply list_elem_of_fmap. by exists (k', v2).
  - exfalso. apply Hk'. apply list_elem_of_fmap. by exists (k', v1).
Qed.

Lemma items_le_trans :
  Transitive (λ a b : string * pyval, String.le a.1 b.1).
Proof. intros a b c ? ?. by etrans. Qed.

Lemma items_le_total :
  Total (λ a b : string * pyval, String.le a.1 b.1).
Proof. intros a b. apply (total String.le). Qed.

(** The id does not depend on the order in which the options were put
    into the dict. *)
Theorem make_options_id_order_independent definitions options opts' :
  NoDup (backend_opts options).*1 →
  opts' ≡ₚ backend_opts options →
  make_options_id definitions
    {| options_name := options_name options;
       options_module := options_module options;
       backend_opts := opts' |}
  = make_options_id definitions options.
Proof.
  intros Hnd Hperm. unfold make_options_id.
  destruct definitions as [definitions|]; [|done].
  cbn [options_name options_module backend_opts]. do 2 f_equal.
  unfold sorted_items.
  pose proof items_le_trans as Htrans. pose proof items_le_total as Htotal.
  apply (Sorted_unique_strong (λ a b : string * pyval, String.le a.1 b.1)).
  - intros [k1 v1] [k2 v2] Hin1 Hin2 Hle1 Hle2. cbn in Hle1, Hle2.
    assert (k1 = k2) as -> by (by apply (anti_symm String.le)).
    f_equal. rewrite merge_sort_Permutation in Hin1, Hin2.
    apply list_elem_of_filter in Hin1 as [_ Hin1].
    apply list_elem_of_filter in Hin2 as [_ Hin2].
    rewrite Hperm in Hin1.
    by eapply (dict_item_unique (backend_opts options)).
  - by apply Sorted_merge_sort.
  - by apply Sorted_merge_sort.
  - by rewrite !merge_sort_Permutation, Hperm.
Qed.

(** *** The signature *)

Lemma generate_signature_loop (sig : list ArgInfo) args kws :
  foldl (λ acc arg,
           let '(args, keyword_args) := acc in
           if is_keyword arg then
             match arg_default arg with
             | Some d =>
                 (args, keyword_args
                          ++ [arg_name arg +:+ "=" +:+ format_value d])
             | None => (args, keyword_args ++ [arg_name arg])
             end
           else
             match arg_default arg with
             | Some d =>
                 (args ++ [arg_name arg +:+ "=" +:+ format_value d],
                  keyword_args)
             | None => (args ++ [arg_name arg], keyword_args)
             end)
        (args, kws) sig
  = (args ++ (signature_item <$> filter (λ a, is_keyword a = false) sig),
     kws ++ (signature_item <$> filter (λ a, is_keyword a = true) sig)).
Proof.
  revert args kws. induction sig as [|a sig IH]; intros args kws; cbn [foldl].
  - by rewrite !filter_nil, !fmap_nil, !app_nil_r.
  - unfold signature_item at 1 2.
    destruct (is_keyword a) eqn:Ek.
    + rewrite filter_cons_False, filter_cons_True by (by rewrite ?Ek).
      destruct (arg_default a) eqn:Ed; rewrite IH, fmap_cons;
        unfold signature_item at 2; rewrite Ed; by rewrite <- app_assoc.
    + rewrite filter_cons_True, filter_cons_False by (by rewrite ?Ek).
      destruct (arg_default a) eqn:Ed; rewrite IH, fmap_cons;
        unfold signature_item at 1; rewrite Ed; by rewrite <- app_assoc.
Qed.

(** The signature lists the positional arguments first and the keyword
    arguments after a single star, each group in the order of the API;
    the star is left out when there is no keyword argument, and the
    signature of no argument is empty. *)
Theorem generate_signature_spec (api_signature : list ArgInfo) :
  let positional :=
    signature_item <$> filter (λ a, is_keyword a = false) api_signature in
  let keyword :=
    signature_item <$> filter (λ a, is_keyword a = true) api_signature in
  generate_signature api_signature
  = str_join ", " (positional
                   ++ match keyword with [] => [] | _ => "*" :: keyword end).
Proof.
  cbn zeta. unfold generate_signature. rewrite generate_signature_loop.
  set (kw := signature_item <$> filter (λ a, is_keyword a = true) _).
  cbn [app]. destruct kw as [|k kw]; cbn [length Nat.ltb Nat.leb];
    [by rewrite app_nil_r | done].
Qed.

End BackendFacts.

(** *** The further properties in a concrete cache *)

Section BuildCacheMoreExamples.
#[local] Existing Instance example_env.
#[local] Existing Instance example_backend_env.


Lemma path_functions_with_root_witness :
  (∃ p, run (get_base_path "numpy") example_fs_ready = (Ok p, example_fs_ready))
  ∧ run (get_stencil_module_path "numpy" example_id) example_fs_ready
    = (Ok (module_path "numpy" example_id), example_fs_ready)
  ∧ run (get_cache_info_path "numpy" example_id) example_fs_ready
    = (Ok (cache_info_path "numpy" example_id), example_fs_ready).
Proof.
  apply (path_functions_with_root "numpy" example_id example_fs_ready).
  reflexivity.
Defined.


Lemma get_cache_info_path_extension_witness :
  ∃ q, run (get_stencil_module_path "numpy" example_id) example_fs_ready
       = (Ok (q +:+ ".py"), example_fs_ready)
    ∧ "/home/user/.gt_cache/py38_1013/numpy/pkg/sub/m_stencil__abc123.cacheinfo"
      = q +:+ ".cacheinfo".
Proof.
  apply (get_cache_info_path_extension "numpy" example_id example_fs_ready).
  reflexivity.
Defined.

Lemma paths_separate_versions_witness :
  module_path "numpy" example_id ≠ module_path "numpy" example_id'
  ∧ cache_info_path "numpy" example_id ≠ cache_info_path "numpy" example_id'.
Proof.
  apply paths_separate_versions; [reflexivity | discriminate].
Defined.

(** An update in the example file system. *)
Lemma update_cache_touches_one_file_witness :
  let out := run (update_cache "numpy" example_id []) example_fs_ready in
  dirs example_fs_ready ⊆ dirs out.2
  ∧ (∀ p, p ≠ cache_info_path "numpy" example_id →
          files out.2 !! p = files example_fs_ready !! p)
  ∧ (out.1 = Ok () →
     ∃ source,
       files example_fs_ready !! module_path "numpy" example_id
       = Some (FData source)
       ∧ files out.2 !! cache_info_path "numpy" example_id
         = Some (FData (pickle_dumps
                          (cache_record "numpy" example_id source [])))).
Proof.
  intros out.
  exact (update_cache_touches_one_file "numpy" example_id []
           example_fs_ready out.1 out.2 eq_refl (surjective_pairing out)).
Defined.

Lemma generate_cache_info_fields_witness :
  ∃ source,
    files example_fs_ready !! module_path "numpy" example_id
    = Some (FData source)
    ∧ ∀ k, dict_get [("gt4py_version", PStr "0.1.0");
                     ("backend", PStr "gtx86");
                     ("stencil_name", PStr "pkg.sub.stencil");
                     ("stencil_version", PStr "abc123");
                     ("module_shash", PStr "sha:def run(): pass");
                     ("opt_level", PStr "O3")] k =
        match dict_get (rev [("backend", PStr "gtx86");
                             ("opt_level", PStr "O3")]) k with
        | Some v => Some v
        | None =>
            dict_get [("gt4py_version", PStr gt_version);
                      ("backend", PStr "numpy");
                      ("stencil_name", PStr (qualified_name example_id));
                      ("stencil_version", PStr (version example_id));
                      ("module_shash", PStr (shash source))] k
        end.
Proof.
  apply (generate_cache_info_fields "numpy" example_id
           [("backend", PStr "gtx86"); ("opt_level", PStr "O3")]
           example_fs_ready _ example_fs_ready).
  reflexivity.
Defined.

Lemma record_validates_only_its_request_witness :
  "numpy" = "numpy" ∧ example_id = example_id
  ∧ ∃ source', read_module "numpy" example_id example_fs = Ok source'
      ∧ shash source' = shash "def run(): pass".
Proof.
  apply (record_validates_only_its_request "numpy" example_id
           "def run(): pass" [("opt_level", PStr "O3")]
           "numpy" example_id example_fs).
  - intros k v Hk. apply list_elem_of_singleton in Hk as [= -> _].
    rewrite !not_elem_of_cons. repeat split; try discriminate.
    apply not_elem_of_nil.
  - reflexivity.
Defined.


End BuildCacheMoreExamples.

(** *** The options and the signature in a concrete backend *)

Section BackendExamples.
#[local] Existing Instance example_backend_env.

(** The option [verbose] is defined without versioning. *)
Lemma make_options_id_ignores_other_options_witness :
  make_options_id (Some example_definitions)
    {| options_name := "stencil"; options_module := "pkg";
       backend_opts := dict_set [("opt_level", PStr "O3")]
                         "verbose" (PBool true) |}
  = make_options_id (Some example_definitions)
      {| options_name := "stencil"; options_module := "pkg";
         backend_opts := [("opt_level", PStr "O3")] |}.
Proof.
  apply (make_options_id_ignores_other_options example_definitions
           {| options_name := "stencil"; options_module := "pkg";
              backend_opts := [("opt_level", PStr "O3")] |}
           "verbose" (PBool true)).
  intros info. vm_compute. intros [= <-]. reflexivity.
Defined.

Lemma make_options_id_order_independent_witness :
  make_options_id (Some example_definitions)
    {| options_name := "stencil"; options_module := "pkg";
       backend_opts := [("verbose", PBool true); ("opt_level", PStr "O3")] |}
  = make_options_id (Some example_definitions)
      {| options_name := "stencil"; options_module := "pkg";
         backend_opts := [("opt_level", PStr "O3"); ("verbose", PBool true)] |}.
Proof.
  apply (make_options_id_order_independent (Some example_definitions)
           {| options_name := "stencil"; options_module := "pkg";
              backend_opts := [("opt_level", PStr "O3");
                               ("verbose", PBool true)] |}).
  - apply (bool_decide_unpack _). reflexivity.
  - apply Permutation_swap.
Defined.

(** An undefined option is refused; the defined ones pass. *)
Example check_options_example :
  _check_options (Some example_definitions)
    {| options_name := "stencil"; options_module := "pkg";
       backend_opts := [("opt_level", PStr "O3"); ("debug", PBool true)] |}
  = Raise ValueError
  ∧ _check_options (Some example_definitions)
      {| options_name := "stencil"; options_module := "pkg";
         backend_opts := [("verbose", PBool true)] |}
    = Ok ().
Proof. by vm_compute. Qed.

(** Two positional arguments, one with a default, and a keyword
    argument. *)
Example generate_signature_example :
  generate_signature
    [{| arg_name := "in_field"; is_keyword := false; arg_default := None |};
     {| arg_name := "scale"; is_keyword := true;
        arg_default := Some (PStr "1.0") |};
     {| arg_name := "out_field"; is_keyword := false; arg_default := None |}]
  = "in_field, out_field, *, scale=1.0"
  ∧ generate_signature [] = "".
Proof. by vm_compute. Qed.

End BackendExamples.
